(** * PENMAN codec

    A shallow embedding of [penman/codec.py] (class [PENMANCodec]): the
    recursive-descent parser over a token stream, the comment/metadata
    parser, the alignment-marker decoder, the triple parser, and the tree
    and triple formatters, followed by the properties proved about them.

    Python values are modelled as follows: [str] is [string], [int] is [Z],
    a tuple is a constructor or a pair, a list is a [list], a [dict] is an
    association list kept in insertion order, a [set] is a [gset]. *)

From stdpp Require Import base strings list gmap.
From Stdlib Require Import ZArith Ascii DecimalString DecimalPos Lia.

Local Open Scope string_scope.
Local Open Scope list_scope.

(** ** Python strings *)

Module Str.

(** [len(s)] *)
Definition len (s : string) : Z := Z.of_nat (String.length s).

(** [s.startswith(p)] *)
Fixpoint startswith (s p : string) {struct p} : bool :=
  match p with
  | EmptyString => true
  | String a p' =>
      match s with
      | String b s' => Ascii.eqb a b && startswith s' p'
      | EmptyString => false
      end
  end.

(** [s[n:]] *)
Fixpoint drop (n : nat) (s : string) : string :=
  match n, s with
  | O, _ => s
  | S n', String _ s' => drop n' s'
  | S _, EmptyString => EmptyString
  end.

(** [sep.join(parts)] *)
Fixpoint join (sep : string) (parts : list string) : string :=
  match parts with
  | [] => ""
  | [p] => p
  | p :: ps => p +:+ sep +:+ join sep ps
  end.

(** [c * n] for a one-character string [c]; a negative [n] gives [''] *)
Fixpoint repeat_nat (c : ascii) (n : nat) : string :=
  match n with
  | O => ""
  | S n' => String c (repeat_nat c n')
  end.

Definition repeat (c : ascii) (n : Z) : string :=
  repeat_nat c (Z.to_nat n).

(** Position-independent search used by [find]: the text before and after
    the first occurrence of [sep]. *)
Fixpoint find_split (sep s : string) : option (string * string) :=
  if startswith s sep then Some ("", drop (String.length sep) s)
  else match s with
       | EmptyString => None
       | String c s' =>
           match find_split sep s' with
           | Some (h, t) => Some (String c h, t)
           | None => None
           end
       end.

(** The text before and after the last occurrence of [sep]. *)
Fixpoint rfind_split (sep s : string) : option (string * string) :=
  match s with
  | EmptyString =>
      if startswith "" sep then Some ("", "") else None
  | String c s' =>
      match rfind_split sep s' with
      | Some (h, t) => Some (String c h, t)
      | None =>
          if startswith s sep
          then Some ("", drop (String.length sep) s)
          else None
      end
  end.

(** [s.partition(sep)]: [(head, sep, tail)] at the first occurrence, or
    [(s, '', '')]. *)
Definition partition (s sep : string) : string * string * string :=
  match find_split sep s with
  | Some (h, t) => (h, sep, t)
  | None => (s, "", "")
  end.

(** [s.rpartition(sep)]: [(head, sep, tail)] at the last occurrence, or
    [('', '', s)]. *)
Definition rpartition (s sep : string) : string * string * string :=
  match rfind_split sep s with
  | Some (h, t) => (h, sep, t)
  | None => ("", "", s)
  end.

(** [s.split(',')] *)
Fixpoint split_comma (s : string) : list string :=
  match s with
  | EmptyString => [""]
  | String c s' =>
      if Ascii.eqb c ","%char then "" :: split_comma s'
      else match split_comma s' with
           | h :: t => String c h :: t
           | [] => [String c ""]
           end
  end.

(** truth value of a string: [bool(s)] *)
Definition truthy (s : string) : bool :=
  match s with EmptyString => false | _ => true end.

(** [s in t] for strings: [s] occurs somewhere in [t] *)
Fixpoint contains (t s : string) : bool :=
  startswith t s
  || match t with
     | String _ t' => contains t' s
     | EmptyString => false
     end.

End Str.

(** ** Atomic values

    An atom is a Python [str], [int] or [float].  Of a float the codec only
    ever takes [str()] and the truth value, so a float is carried as these
    two observations. *)

Record PyFloat := mkFloat { float_str : string; float_truth : bool }.

Inductive Constant :=
| CStr (s : string)
| CInt (z : Z)
| CFloat (f : PyFloat).

#[global] Instance PyFloat_eq_dec : EqDecision PyFloat.
Proof. solve_decision. Defined.

#[global] Instance Constant_eq_dec : EqDecision Constant.
Proof. solve_decision. Defined.

#[global] Instance Constant_countable : Countable Constant.
Proof.
  refine (inj_countable'
    (fun c => match c with
              | CStr s => inl s
              | CInt z => inr (inl z)
              | CFloat f => inr (inr (float_str f, float_truth f))
              end)
    (fun x => match x with
              | inl s => CStr s
              | inr (inl z) => CInt z
              | inr (inr (s, b)) => CFloat (mkFloat s b)
              end) _).
  intros [s | z | [s b]]; reflexivity.
Defined.

(** [str(z)] for an integer *)
Definition str_int (z : Z) : string := NilZero.string_of_int (Z.to_int z).

(** [str(c)], as used by the [{!s}] and [{}] format fields *)
Definition str_const (c : Constant) : string :=
  match c with
  | CStr s => s
  | CInt z => str_int z
  | CFloat f => float_str f
  end.

(** truth value of an atom: [bool(c)] *)
Definition truthy_const (c : Constant) : bool :=
  match c with
  | CStr s => Str.truthy s
  | CInt z => negb (Z.eqb z 0)
  | CFloat f => float_truth f
  end.

(** ** Surface alignments ([penman.surface]) *)

(** The two marker classes the parser instantiates. *)
Inductive MarkerClass := Alignment | RoleAlignment.

(** Modelled from the spec: the class [AlignmentMarker] of [penman.surface]
    is not part of this module.  A marker holds an index sequence, an
    optional prefix and a mode; [RoleAlignment] markers are role epigraphs,
    which [_format_edge] selects with [mode == 1], and [Alignment] markers
    are target epigraphs, selected with [mode == 2]. *)
Record AlignmentMarker := mkMarker {
  cls : MarkerClass;
  indices : list Z;
  prefix : option string
}.

Definition mode (m : AlignmentMarker) : Z :=
  match cls m with
  | RoleAlignment => 1
  | Alignment => 2
  end.

#[global] Instance MarkerClass_eq_dec : EqDecision MarkerClass.
Proof. solve_decision. Defined.

#[global] Instance AlignmentMarker_eq_dec : EqDecision AlignmentMarker.
Proof. solve_decision. Defined.

(** ** Trees ([penman.tree])

    A node is the tuple [(id, edges)], an edge the tuple
    [(role, target, epidata)]; a target is [None], an atom or a node. *)

Inductive Node :=
| mkNode (id : option Constant) (edges : list Edge)
with Edge :=
| mkEdge (role : string) (target : Target) (epidata : list AlignmentMarker)
with Target :=
| TNone
| TAtom (c : Constant)
| TNode (n : Node).

Definition node_id (n : Node) : option Constant :=
  match n with mkNode id _ => id end.

Definition node_edges (n : Node) : list Edge :=
  match n with mkNode _ edges => edges end.

Definition edge_role (e : Edge) : string :=
  match e with mkEdge role _ _ => role end.

Definition edge_target (e : Edge) : Target :=
  match e with mkEdge _ target _ => target end.

Definition edge_epidata (e : Edge) : list AlignmentMarker :=
  match e with mkEdge _ _ epidata => epidata end.

(** A Python [dict] with string keys and values: insertion order is kept,
    and assigning to a key already present replaces its value in place. *)
Definition Dict := list (string * string).

Fixpoint dict_set (d : Dict) (key value : string) : Dict :=
  match d with
  | [] => [(key, value)]
  | (k, v) :: d' =>
      if String.eqb k key then (k, value) :: d'
      else (k, v) :: dict_set d' key value
  end.

Fixpoint dict_get (d : Dict) (key : string) : option string :=
  match d with
  | [] => None
  | (k, v) :: d' => if String.eqb k key then Some v else dict_get d' key
  end.

Definition dict_keys (d : Dict) : list string := map fst d.

Record Tree := mkTree { node : Node; metadata : Dict }.

(** ** Tokens and the token stream ([penman.lexer]) *)

(** Modelled from the spec: a token has a type name, its raw text and a
    decoded value.  The codec reads [value] only from SYMBOL, STRING,
    INTEGER and FLOAT tokens. *)
Record Token := mkToken { type : string; text : string; value : Constant }.

#[global] Instance Token_eq_dec : EqDecision Token.
Proof. solve_decision. Defined.

(** A syntax error: either built by [tokens.error(message, token=...)], or
    raised by [tokens.expect] on a token whose type is not among the
    expected ones, or raised by the stream at the end of the input. *)
Inductive PenmanSyntaxError :=
| ErrorAt (message : string) (token : Token)
| ErrorExpected (choices : list string) (found : Token)
| ErrorEndOfInput.

(** What a computation over the token stream gives: a value, a raised
    error, or no answer within the iteration bound. *)
Inductive Outcome (A : Type) :=
| Return (a : A)
| Raise (e : PenmanSyntaxError)
| OutOfFuel.

Arguments Return {A} a.
Arguments Raise {A} e.
Arguments OutOfFuel {A}.

Definition TokenIterator := list Token.

(** A computation that reads the stream and leaves the unread tokens. *)
Definition Parser (A : Type) := TokenIterator -> Outcome (A * TokenIterator).

Definition ret {A} (a : A) : Parser A := fun ts => Return (a, ts).

Definition raise {A} (e : PenmanSyntaxError) : Parser A := fun _ => Raise e.

Definition bind {A B} (m : Parser A) (k : A -> Parser B) : Parser B :=
  fun ts =>
    match m ts with
    | Return (a, ts') => k a ts'
    | Raise e => Raise e
    | OutOfFuel => OutOfFuel
    end.

Notation "'let*' x ':=' m 'in' k" := (bind m (fun x => k))
  (at level 10, x pattern, m at level 100, k at level 200).

(** Type names are compared as strings, as the source does. *)
Definition is_type (t : Token) (name : string) : bool :=
  String.eqb (type t) name.

Definition type_in (t : Token) (names : list string) : bool :=
  existsb (String.eqb (type t)) names.

(** The valid tokens for node identifiers. *)
Definition IDENTIFIERS : list string := ["SYMBOL"].

(** The valid non-node targets of edges. *)
Definition ATOMS : list string := ["SYMBOL"; "STRING"; "INTEGER"; "FLOAT"].

(** ** The alignment pattern

    [re.match] of the token text against: a tilde; optionally the group
    [prefix], one letter of [a-zA-Z] with an optional dot after it; then the
    group [indices], one or more digits followed by any number of
    comma-and-digits repetitions.  The match is anchored at the start of the
    text only.  Characters are bytes here, so a digit is an ASCII digit. *)

Module AlignmentRe.

Definition is_digit (c : ascii) : bool :=
  (48 <=? nat_of_ascii c)%nat && (nat_of_ascii c <=? 57)%nat.

Definition is_letter (c : ascii) : bool :=
  ((65 <=? nat_of_ascii c)%nat && (nat_of_ascii c <=? 90)%nat)
  || ((97 <=? nat_of_ascii c)%nat && (nat_of_ascii c <=? 122)%nat).

(** The longest continuation of the group [indices] once a digit has
    been read: more digits, or a comma that a digit follows. *)
Fixpoint more_indices (s : string) : string :=
  match s with
  | EmptyString => ""
  | String c s' =>
      if is_digit c then String c (more_indices s')
      else if Ascii.eqb c ","%char then
        match s' with
        | String d _ => if is_digit d then String c (more_indices s') else ""
        | EmptyString => ""
        end
      else ""
  end.

(** The group [indices] at the start of [s]. *)
Definition match_indices (s : string) : option string :=
  match s with
  | String c s' =>
      if is_digit c then Some (String c (more_indices s')) else None
  | EmptyString => None
  end.

(** The groups [(prefix, indices)] of the match, if there is one.  The
    optional parts are tried greedily: a letter with a dot, a letter
    alone, no prefix. *)
Definition groups (text : string) : option (option string * string) :=
  match text with
  | String "~"%char s =>
      let without_prefix :=
        match match_indices s with
        | Some ix => Some (None, ix)
        | None => None
        end in
      match s with
      | String c s1 =>
          if is_letter c then
            let letter_only :=
              match match_indices s1 with
              | Some ix => Some (Some (String c ""), ix)
              | None => without_prefix
              end in
            match s1 with
            | String "."%char s2 =>
                match match_indices s2 with
                | Some ix => Some (Some (String c "."), ix)
                | None => letter_only
                end
            | _ => letter_only
            end
          else without_prefix
      | EmptyString => without_prefix
      end
  | _ => None
  end.

(** [int(digits)] for a string of decimal digits *)
Fixpoint int_from (acc : Z) (digits : string) : Z :=
  match digits with
  | EmptyString => acc
  | String c s => int_from (10 * acc + Z.of_nat (nat_of_ascii c - 48)) s
  end.

Definition int (digits : string) : Z := int_from 0 digits.

End AlignmentRe.

(** The part of [_parse_alignment] that follows the reading of the token:
    the marker of class [cls] decoded from the token's text. *)
Definition decode_alignment (cls : MarkerClass) (text : string)
  : AlignmentMarker :=
  match AlignmentRe.groups text with
  | Some (prefix, indices) =>
      mkMarker cls (map AlignmentRe.int (Str.split_comma indices)) prefix
  | None => mkMarker cls [] None
  end.

(** ** The parser *)

Section Parsing.

(** What the stream gives once every token has been read: it either
    raises or hands out an end marker.  The class [TokenIterator] of
    [penman.lexer] is not part of this module, so this is left open. *)
Variable at_end : PenmanSyntaxError + Token.

(** Modelled from the spec: the token stream.  [peek] returns the current
    token without advancing, [next] returns it and advances, [expect]
    does so when the token's type is one of the given ones and raises a
    syntax error otherwise. *)
Definition current (ts : TokenIterator) : PenmanSyntaxError + Token :=
  match ts with
  | t :: _ => inr t
  | [] => at_end
  end.

Definition peek : Parser Token :=
  fun ts =>
    match current ts with
    | inr t => Return (t, ts)
    | inl e => Raise e
    end.

Definition next : Parser Token :=
  fun ts =>
    match current ts with
    | inr t => Return (t, tail ts)
    | inl e => Raise e
    end.

Definition expect (choices : list string) : Parser Token :=
  fun ts =>
    match current ts with
    | inr t =>
        if type_in t choices then Return (t, tail ts)
        else Raise (ErrorExpected choices t)
    | inl e => Raise e
    end.

(** [tokens.error(message, token=token)] *)
Definition error (message : string) (token : Token) : PenmanSyntaxError :=
  ErrorAt message token.

(** [_parse_alignment]: parse a surface alignment from the stream. *)
Definition _parse_alignment (cls : MarkerClass) : Parser AlignmentMarker :=
  let* token := expect ["ALIGNMENT"] in
  ret (decode_alignment cls (text token)).

(** The body of the inner loop of [_parse_comments]: the pairs of one
    comment are taken from the right, with [rpartition]. *)
Fixpoint comment_loop (fuel : nat) (comment : string) (metadata : Dict)
  : Dict :=
  match fuel with
  | O => metadata
  | S fuel' =>
      if Str.truthy comment then
        let '(comment', found, meta) := Str.rpartition comment "::" in
        if Str.truthy found then
          let '(key, _, value) := Str.partition meta " " in
          comment_loop fuel' comment' (dict_set metadata key value)
        else comment_loop fuel' comment' metadata
      else metadata
  end.

(** [while comment: ...]: the comment gets shorter at every turn, so its
    length bounds the number of turns (see [parse_comment_unfold]). *)
Definition parse_comment (comment : string) (metadata : Dict) : Dict :=
  comment_loop (S (String.length comment)) comment metadata.

(** [_parse_comments]: the leading comments, as metadata. *)
Fixpoint _parse_comments_loop (fuel : nat) (metadata : Dict) : Parser Dict :=
  match fuel with
  | O => fun _ => OutOfFuel
  | S fuel' =>
      let* t := peek in
      if is_type t "COMMENT" then
        let* c := next in
        _parse_comments_loop fuel' (parse_comment (text c) metadata)
      else ret metadata
  end.

Definition _parse_comments (fuel : nat) : Parser Dict :=
  _parse_comments_loop fuel [].

(** [_parse_node_label] *)
Definition _parse_node_label : Parser Edge :=
  let* _ := expect ["SLASH"] in
  let* t := peek in
  (* for robustness, don't assume next token is the label *)
  if type_in t ATOMS then
    let* l := next in
    let* t' := peek in
    let* epis :=
      (if is_type t' "ALIGNMENT" then
         let* a := _parse_alignment Alignment in ret [a]
       else ret []) in
    ret (mkEdge "/" (TAtom (value l)) epis)
  else ret (mkEdge "/" TNone []).

(** [_parse_node] and [_parse_edge]; [_parse_edges] is the loop
    [while tokens.peek().type != 'RPAREN'] of [_parse_node]. *)
Fixpoint _parse_node (fuel : nat) : Parser Node :=
  match fuel with
  | O => fun _ => OutOfFuel
  | S fuel' =>
      let* _ := expect ["LPAREN"] in
      let* t := peek in
      let* (id, edges) :=
        (if negb (is_type t "RPAREN") then
           let* i := expect IDENTIFIERS in
           let* t' := peek in
           let* edges :=
             (if is_type t' "SLASH" then
                let* l := _parse_node_label in ret [l]
              else ret []) in
           let* edges := _parse_edges fuel' edges in
           ret (Some (value i), edges)
         else ret (None, [])) in
      let* _ := expect ["RPAREN"] in
      ret (mkNode id edges)
  end
with _parse_edges (fuel : nat) (edges : list Edge) : Parser (list Edge) :=
  match fuel with
  | O => fun _ => OutOfFuel
  | S fuel' =>
      let* t := peek in
      if negb (is_type t "RPAREN") then
        let* e := _parse_edge fuel' in
        _parse_edges fuel' (edges ++ [e])
      else ret edges
  end
with _parse_edge (fuel : nat) : Parser Edge :=
  match fuel with
  | O => fun _ => OutOfFuel
  | S fuel' =>
      let* r := expect ["ROLE"] in
      let role := text r in
      let* t := peek in
      let* epidata :=
        (if is_type t "ALIGNMENT" then
           let* a := _parse_alignment RoleAlignment in ret [a]
         else ret []) in
      let* _next := peek in
      if type_in _next ATOMS then
        let* a := next in
        let* t' := peek in
        let* epidata :=
          (if is_type t' "ALIGNMENT" then
             let* m := _parse_alignment Alignment in ret (epidata ++ [m])
           else ret epidata) in
        ret (mkEdge role (TAtom (value a)) epidata)
      else if is_type _next "LPAREN" then
        let* n := _parse_node fuel' in
        ret (mkEdge role (TNode n) epidata)
      (* for robustness in parsing, allow edges with no target *)
      else if negb (type_in _next ["ROLE"; "RPAREN"]) then
        raise (error "Expected: ATOM, LPAREN" _next)
      else ret (mkEdge role TNone epidata)
  end.

(** Iterations that always suffice for a stream of [n] tokens. *)
Definition fuel_for (ts : TokenIterator) : nat := 2 * length ts + 4.

(** [parse], applied to the tokens [lex(s, pattern=PENMAN_RE)]. *)
Definition parse (tokens : TokenIterator) : Outcome (Tree * TokenIterator) :=
  (let* metadata := _parse_comments (fuel_for tokens) in
   let* node := _parse_node (fuel_for tokens) in
   ret (mkTree node metadata)) tokens.

(** A triple [(source, role, target)]. *)
Definition Triple : Type := string * string * option Constant.

(** [parse_triples], applied to the tokens [lex(s, pattern=TRIPLE_RE)];
    the recursion is the [while True] loop.  The variable [target] is
    assigned in two of the three branches and keeps its value in the
    third, where the next [expect] raises; before its first assignment it
    stands as [None] here. *)
Fixpoint _parse_triples_loop (fuel : nat) (target : option Constant)
  (triples : list Triple) : Parser (list Triple) :=
  match fuel with
  | O => fun _ => OutOfFuel
  | S fuel' =>
      let* r := expect ["SYMBOL"] in
      let role := text r in
      let* _ := expect ["LPAREN"] in
      let* s := expect IDENTIFIERS in
      let source := text s in
      let* _ := expect ["COMMA"] in
      let* _next := peek in
      let* target :=
        (if type_in _next ATOMS then
           let* a := next in ret (Some (value a))
         else if is_type _next "RPAREN" then
           (* special case for robustness *)
           ret None
         else ret target) in
      let* _ := expect ["RPAREN"] in
      let triples := triples ++ [(source, role, target)] in
      (* continue only if triple is followed by ^ *)
      let* t := peek in
      if is_type t "CARET" then
        let* _ := next in _parse_triples_loop fuel' target triples
      else ret triples
  end.

Definition parse_triples (tokens : TokenIterator)
  : Outcome (list Triple * TokenIterator) :=
  _parse_triples_loop (fuel_for tokens) None [] tokens.

End Parsing.

(** ** The formatter *)

(** The line feed, ['\n']. *)
Definition LF : string := String "010"%char "".

(** [str(x)] for an optional atom; [str(None)] is ['None']. *)
Definition str_opt (x : option Constant) : string :=
  match x with
  | Some c => str_const c
  | None => "None"
  end.

(** [bool(x)] for an optional atom; [None] is false. *)
Definition truthy_opt (x : option Constant) : bool :=
  match x with
  | Some c => truthy_const c
  | None => false
  end.

(** Modelled from the spec: [tree.nodes()] of [penman.tree] is not part of
    this module; [[id for id, _ in tree.nodes()]] lists the identifiers that
    appear as the id of any node of the tree, the root included. *)
Fixpoint node_ids (n : Node) : list Constant :=
  match n with
  | mkNode id edges =>
      match id with Some i => [i] | None => [] end
      ++ (fix edges_ids (es : list Edge) : list Constant :=
            match es with
            | [] => []
            | mkEdge _ (TNode m) _ :: es' => node_ids m ++ edges_ids es'
            | _ :: es' => edges_ids es'
            end) edges
  end.

Section Formatting.

(** [str(epi)] for a marker: [AlignmentMarker.__str__] of
    [penman.surface] is not part of this module. *)
Variable str_marker : AlignmentMarker -> string.

(** Whether [is_atomic(None)] holds: [is_atomic] of [penman.tree] is not
    part of this module, and [_format_edge] tests [target is None] before
    it calls [is_atomic], so both answers agree with the code here. *)
Variable none_is_atomic : bool.

(** Modelled from the spec: [is_atomic(target)] holds of an atomic
    constant and fails of a node. *)
Definition is_atomic (target : Target) : bool :=
  match target with
  | TNone => none_is_atomic
  | TAtom _ => true
  | TNode _ => false
  end.

(** [target in ids], evaluated for atomic targets only; [ids] holds
    identifiers, so [None] is not in it.  Atoms are equal when they are the
    same string or the same number of the same type. *)
Definition in_ids (target : Target) (ids : gset Constant) : bool :=
  match target with
  | TAtom c => bool_decide (c ∈ ids)
  | _ => false
  end.

(** [''.join(str(epi) for epi in epidata if epi.mode == m)] *)
Definition epi_text (m : Z) (epidata : list AlignmentMarker) : string :=
  Str.join ""
    (map str_marker (filter (fun epi => mode epi = m) epidata)).

(** The role as [_format_edge] writes it. *)
Definition format_role (role : string) : string :=
  if negb (String.eqb role "/") && negb (Str.startswith role ":")
  then ":" +:+ role
  else role.

(** One turn of the loop over the edges in [_format_node], up to the
    call of [_format_edge]: the test that ends the compact run. *)
Definition close_run (compact : bool) (parts : list string)
    (target : Target) (ids : gset Constant) : bool * list string :=
  if compact && (negb (is_atomic target) || in_ids target ids) then
    (false, match parts with [] => parts | _ => [Str.join " " parts] end)
  else (compact, parts).

(** [_format_node] and [_format_edge] *)
Fixpoint _format_node (n : Node) (indent : option Z) (column : Z)
    (ids : gset Constant) {struct n} : string :=
  match n with
  | mkNode id edges =>
      if negb (truthy_opt id) then "()" (* empty node *)
      else
        match edges with
        | [] => "(" +:+ str_opt id +:+ ")" (* id-only node *)
        | _ =>
            (* determine appropriate joiner based on value of indent *)
            let '(column, joiner) :=
              match indent with
              | None => (column, " ")
              | Some i =>
                  let column :=
                    if Z.eqb i (-1)
                    then (column + (Str.len (str_opt id) + 2))%Z
                    else (column + i)%Z in
                  (column, LF +:+ Str.repeat " " column)
              end in
            (* format the edges and join them *)
            let parts :=
              (fix loop (es : list Edge) (compact : bool)
                   (parts : list string) {struct es} : list string :=
                 match es with
                 | [] =>
                     (* check if all edges can be compactly written *)
                     if compact then [Str.join " " parts] else parts
                 | edge :: es' =>
                     let '(compact, parts) :=
                       close_run compact parts (edge_target edge) ids in
                     loop es' compact
                       (parts ++ [_format_edge edge indent column ids])
                 end) edges (negb (bool_decide (ids = ∅))) [] in
            "(" +:+ str_opt id +:+ " " +:+ Str.join joiner parts +:+ ")"
        end
  end
with _format_edge (edge : Edge) (indent : option Z) (column : Z)
    (ids : gset Constant) {struct edge} : string :=
  match edge with
  | mkEdge role target epidata =>
      let role := format_role role in
      let role_epi := epi_text 1 epidata in
      let target_epi := epi_text 2 epidata in
      let column :=
        if bool_decide (indent = Some (-1)%Z)
        then (column + (Str.len role + Str.len role_epi + 1))%Z
        else column in
      let target :=
        match target with
        | TNone => ""
        | TAtom c => str_const c
        | TNode n => _format_node n indent column ids
        end in
      role +:+ role_epi +:+ " " +:+ target +:+ target_epi
  end.

(** [format]; a bare node given for [tree] is first wrapped as
    [Tree(tree)], with no metadata. *)
Definition format (tree : Tree) (indent : option Z) (compact : bool)
  : string :=
  let ids := if compact then node_ids (node tree) else [] in
  let parts :=
    map (fun '(key, value) => "# ::" +:+ key +:+ " " +:+ value)
        (metadata tree) in
  let parts :=
    parts ++ [_format_node (node tree) indent 0 (list_to_set ids)] in
  Str.join LF parts.

(** The loop over the edges in [_format_node], on its own: [parts] and
    [compact] are the loop's variables. *)
Definition edges_loop (indent : option Z) (column : Z) (ids : gset Constant)
  : list Edge -> bool -> list string -> list string :=
  fix loop (es : list Edge) (compact : bool) (parts : list string)
      {struct es} : list string :=
    match es with
    | [] => if compact then [Str.join " " parts] else parts
    | edge :: es' =>
        let '(compact, parts) :=
          close_run compact parts (edge_target edge) ids in
        loop es' compact (parts ++ [_format_edge edge indent column ids])
    end.

(** The column [_format_node] moves to before it formats the edges of a
    node with identifier [id], and the joiner it puts between parts. *)
Definition edges_column (indent : option Z) (column : Z)
    (id : option Constant) : Z :=
  match indent with
  | None => column
  | Some i =>
      if Z.eqb i (-1) then (column + (Str.len (str_opt id) + 2))%Z
      else (column + i)%Z
  end.

Definition edges_joiner (indent : option Z) (column : Z)
    (id : option Constant) : string :=
  match indent with
  | None => " "
  | Some _ => LF +:+ Str.repeat " " (edges_column indent column id)
  end.

(** An edge that may stay on the first line in compact layout: its target
    is atomic and is no node's identifier. *)
Definition compactable (ids : gset Constant) (edge : Edge) : bool :=
  is_atomic (edge_target edge) && negb (in_ids (edge_target edge) ids).

End Formatting.

(** The longest prefix of a list whose elements all satisfy [p], and what
    follows it. *)
Fixpoint leading_run {A} (p : A -> bool) (l : list A) : list A :=
  match l with
  | x :: l' => if p x then x :: leading_run p l' else []
  | [] => []
  end.

Fixpoint after_run {A} (p : A -> bool) (l : list A) : list A :=
  match l with
  | x :: l' => if p x then after_run p l' else l
  | [] => []
  end.

(** Texts put on one line, separated by single spaces; nothing for no text. *)
Definition one_line (texts : list string) : list string :=
  match texts with
  | [] => []
  | _ => [Str.join " " texts]
  end.

(** [format_triples], applied to the triples [g.triples()]. *)
Definition format_triples (triples : list Triple) (indent : bool) : string :=
  let delim := if indent then " ^" +:+ LF else " ^ " in
  Str.join delim
    (map (fun '(source, role, target) =>
            role +:+ "(" +:+ source +:+ ", " +:+ str_opt target +:+ ")")
         triples).

(** ** Vocabulary of the statements *)

(** Tokens as the lexer hands them over, by type. *)
Definition alignment_token (text : string) : Token :=
  mkToken "ALIGNMENT" text (CStr text).

Definition symbol_token (text : string) : Token :=
  mkToken "SYMBOL" text (CStr text).

Definition role_token (text : string) : Token :=
  mkToken "ROLE" text (CStr text).

Definition comment_token (text : string) : Token :=
  mkToken "COMMENT" text (CStr text).

Definition punct_token (type text : string) : Token :=
  mkToken type text (CStr text).

(** The tokens of [(a :ARG0 :ARG1 b)]. *)
Definition dangling_tokens : TokenIterator :=
  [punct_token "LPAREN" "("; symbol_token "a"; role_token ":ARG0";
   role_token ":ARG1"; symbol_token "b"; punct_token "RPAREN" ")"].

(** The tokens of [instance(b, bark) ^ ARG1(b, d)]. *)
Definition conjunction_tokens : TokenIterator :=
  [symbol_token "instance"; punct_token "LPAREN" "("; symbol_token "b";
   punct_token "COMMA" ","; symbol_token "bark"; punct_token "RPAREN" ")";
   punct_token "CARET" "^";
   symbol_token "ARG1"; punct_token "LPAREN" "("; symbol_token "b";
   punct_token "COMMA" ","; symbol_token "d"; punct_token "RPAREN" ")"].

Definition conjunction_triples : list Triple :=
  [("b", "instance", Some (CStr "bark")); ("b", "ARG1", Some (CStr "d"))].

(** A node whose first two edges have atomic targets and whose third edge
    has a nested node as its target: [(a :x 1 :y two :z (b))]. *)
Definition two_atoms_then_node : Node :=
  mkNode (Some (CStr "a"))
    [mkEdge ":x" (TAtom (CInt 1)) []; mkEdge ":y" (TAtom (CStr "two")) [];
     mkEdge ":z" (TNode (mkNode (Some (CStr "b")) [])) []].

(** A node with two edges, to be nested under an edge: [(b :x 1 :y 2)]. *)
Definition two_edge_node : Node :=
  mkNode (Some (CStr "b"))
    [mkEdge ":x" (TAtom (CInt 1)) []; mkEdge ":y" (TAtom (CInt 2)) []].

(** The comment line [# ::key value] that [format] writes for an item of
    the metadata. *)
Definition metadata_line (item : string * string) : string :=
  "# ::" +:+ fst item +:+ " " +:+ snd item.

(** The column at which the text goes on after [s] is written from the
    column [start]: a line feed goes back to column 0. *)
Fixpoint cursor_after (start : Z) (s : string) : Z :=
  match s with
  | EmptyString => start
  | String c s' =>
      if Ascii.eqb c "010"%char then cursor_after 0 s'
      else cursor_after (start + 1) s'
  end.

(** The epigraph an optional alignment token after the role gives, and the
    stream with that token put before it. *)
Definition role_epigraph (al : option Token) : list AlignmentMarker :=
  match al with
  | Some a => [decode_alignment RoleAlignment (text a)]
  | None => []
  end.

Definition with_alignment (al : option Token) (ts : TokenIterator)
  : TokenIterator :=
  match al with
  | Some a => a :: ts
  | None => ts
  end.

(** The text of a comment that holds the pairs [pairs] after the text
    [pre]: each pair is written as two colons, the key, a space and the
    value. *)
Definition pair_body (kv : string * string) : string :=
  fst kv +:+ " " +:+ snd kv.

Fixpoint pairs_text (pairs : list (string * string)) : string :=
  match pairs with
  | [] => ""
  | kv :: pairs' => "::" +:+ pair_body kv +:+ pairs_text pairs'
  end.

Definition comment_text (c : string * list (string * string)) : string :=
  fst c +:+ pairs_text (snd c).

(** The pairs can be read back from the text: a key has no space and does
    not start with a colon, there are no two colons in a row inside a pair,
    and none in the text before the pairs. *)
Definition well_formed_pair (kv : string * string) : bool :=
  negb (Str.contains (fst kv) " ")
  && negb (Str.startswith (fst kv) ":")
  && negb (Str.contains (pair_body kv) "::").

Definition well_formed_comment (c : string * list (string * string)) : bool :=
  negb (Str.contains (fst c) "::") && forallb well_formed_pair (snd c).

(** The keys of a list in the order of their first occurrence, those in
    [seen] left out. *)
Fixpoint first_keys (seen : list string) (keys : list string) : list string :=
  match keys with
  | [] => []
  | k :: keys' =>
      if bool_decide (k ∈ seen) then first_keys seen keys'
      else k :: first_keys (k :: seen) keys'
  end.

(** Entering a list of pairs into a dictionary, one after the other. *)
Definition dict_update (d : Dict) (entries : list (string * string)) : Dict :=
  fold_left (fun d kv => dict_set d (fst kv) (snd kv)) entries d.

(** The pairs of the comments in the order in which they are entered:
    comment after comment, and within a comment from the right. *)
Definition entries_of (comments : list (string * list (string * string)))
  : list (string * string) :=
  flat_map (fun c => rev (snd c)) comments.

(** The markers attached anywhere in a node: those of its edges and of the
    nodes below them. *)
Fixpoint node_markers (n : Node) : list AlignmentMarker :=
  match n with
  | mkNode _ edges =>
      (fix edges_markers (es : list Edge) : list AlignmentMarker :=
         match es with
         | [] => []
         | mkEdge _ target epidata :: es' =>
             epidata
             ++ match target with
                | TNode m => node_markers m
                | _ => []
                end
             ++ edges_markers es'
         end) edges
  end.

Definition edge_markers (e : Edge) : list AlignmentMarker :=
  match e with
  | mkEdge _ target epidata =>
      epidata
      ++ match target with
         | TNode m => node_markers m
         | _ => []
         end
  end.

(** The marker [m] is decoded from an alignment token that the stream
    [ts] hands out: one of its tokens, or the end marker. *)
Definition from_token (at_end : PenmanSyntaxError + Token)
    (ts : TokenIterator) (m : AlignmentMarker) : Prop :=
  exists (tok : Token) (c : MarkerClass),
    (tok ∈ ts \/ at_end = inr tok)
    /\ is_type tok "ALIGNMENT" = true
    /\ m = decode_alignment c (text tok).


(** At the end of the input the stream raises, or it hands out an end
    marker that is neither a role nor a comment. *)
Definition end_is_final (at_end : PenmanSyntaxError + Token) : bool :=
  match at_end with
  | inr t => negb (is_type t "ROLE") && negb (is_type t "COMMENT")
  | inl _ => true
  end.

(** The computation gives an answer within its iteration bound. *)
Definition answers {A} (r : Outcome A) : Prop := r <> OutOfFuel.

(** The stream goes on with a token that is not a comment. *)
Definition not_comment_next (at_end : PenmanSyntaxError + Token)
    (rest : TokenIterator) : bool :=
  match current at_end rest with
  | inr t => negb (is_type t "COMMENT")
  | inl _ => false
  end.

(** The three comments [# ::id 1], [# ::date 2020], [# ::id 3]. *)
Definition id_date_id : list (string * list (string * string)) :=
  [("# ", [("id", "1")]); ("# ", [("date", "2020")]); ("# ", [("id", "3")])].

(** An end marker, for streams that hand one out at the end of input. *)
Definition end_marker : Token := mkToken "EOF" "" (CStr "").

(** The nodes of a tree: the node itself and the nodes below its edges. *)
Fixpoint subnodes (n : Node) : list Node :=
  n :: match n with
       | mkNode _ edges =>
           (fix below (es : list Edge) : list Node :=
              match es with
              | [] => []
              | mkEdge _ (TNode m) _ :: es' => subnodes m ++ below es'
              | _ :: es' => below es'
              end) edges
       end.

Definition edge_subnodes (e : Edge) : list Node :=
  match edge_target e with
  | TNode m => subnodes m
  | _ => []
  end.

(** A node that has no identifier has no edges. *)
Definition edges_need_id (n : Node) : bool :=
  match node_id n, node_edges n with
  | None, _ :: _ => false
  | _, _ => true
  end.

(** The epigraph of an edge is at most a role alignment followed by at
    most a target alignment, and there is a target alignment only after an
    atom. *)
Definition epigraph_in_order (e : Edge) : bool :=
  match map cls (edge_epidata e), edge_target e with
  | [], _ => true
  | [RoleAlignment], _ => true
  | [Alignment], TAtom _ => true
  | [RoleAlignment; Alignment], TAtom _ => true
  | _, _ => false
  end.

(** Both hold of a node, and of an edge and the nodes below it. *)
Definition node_in_shape (n : Node) : Prop :=
  edges_need_id n = true
  /\ Forall (fun e => epigraph_in_order e = true) (node_edges n).

Definition edge_in_shape (e : Edge) : Prop :=
  epigraph_in_order e = true /\ Forall node_in_shape (edge_subnodes e).

(** The tokens of [(a / alpha~1 :ARG0~2 (b) :ARG1 c~e.3 :ARG2)]. *)
Definition aligned_tokens : TokenIterator :=
  [punct_token "LPAREN" "("; symbol_token "a"; punct_token "SLASH" "/";
   symbol_token "alpha"; alignment_token "~1";
   role_token ":ARG0"; alignment_token "~2";
   punct_token "LPAREN" "("; symbol_token "b"; punct_token "RPAREN" ")";
   role_token ":ARG1"; symbol_token "c"; alignment_token "~e.3";
   role_token ":ARG2"; punct_token "RPAREN" ")"].

Definition aligned_tree : Tree :=
  mkTree
    (mkNode (Some (CStr "a"))
       [mkEdge "/" (TAtom (CStr "alpha")) [mkMarker Alignment [1%Z] None];
        mkEdge ":ARG0" (TNode (mkNode (Some (CStr "b")) []))
          [mkMarker RoleAlignment [2%Z] None];
        mkEdge ":ARG1" (TAtom (CStr "c"))
          [mkMarker Alignment [3%Z] (Some "e.")];
        mkEdge ":ARG2" TNone []])
    [].

(** The token of an atom: its type goes by the kind of atom, its text is
    the atom as written and its value the atom. *)
Definition atom_token (c : Constant) : Token :=
  mkToken match c with
          | CStr _ => "SYMBOL"
          | CInt _ => "INTEGER"
          | CFloat _ => "FLOAT"
          end
          (str_const c) c.

(** The tokens of one triple, [role(source, target)] or [role(source, )]
    when there is no target, and of a conjunction of triples. *)
Definition triple_tokens (t : Triple) : list Token :=
  let '(source, role, target) := t in
  [symbol_token role; punct_token "LPAREN" "("; symbol_token source;
   punct_token "COMMA" ","]
  ++ match target with
     | Some c => [atom_token c]
     | None => []
     end
  ++ [punct_token "RPAREN" ")"].

Fixpoint conjunction (triples : list Triple) : list Token :=
  match triples with
  | [] => []
  | [t] => triple_tokens t
  | t :: triples' =>
      triple_tokens t ++ punct_token "CARET" "^" :: conjunction triples'
  end.

(** The stream goes on with a token that is not a caret. *)
Definition not_caret_next (at_end : PenmanSyntaxError + Token)
    (rest : TokenIterator) : bool :=
  match current at_end rest with
  | inr t => negb (is_type t "CARET")
  | inl _ => false
  end.

(** The text of a marker: a tilde, the prefix if there is one, the indices
    separated by commas, and whatever follows. *)
Fixpoint digits_only (s : string) : bool :=
  match s with
  | EmptyString => true
  | String c s' => AlignmentRe.is_digit c && digits_only s'
  end.

Definition index_text (s : string) : bool := Str.truthy s && digits_only s.

Definition prefix_text (p : option string) : string :=
  match p with
  | Some s => s
  | None => ""
  end.

(** A prefix is one letter, or one letter and a dot. *)
Definition prefix_ok (p : option string) : bool :=
  match p with
  | None => true
  | Some (String c EmptyString) => AlignmentRe.is_letter c
  | Some (String c (String d EmptyString)) =>
      AlignmentRe.is_letter c && Ascii.eqb d "."%char
  | Some _ => false
  end.

(** A text that cannot continue a sequence of indices: it does not start
    with a digit, nor with a comma that a digit follows. *)
Definition ends_indices (junk : string) : bool :=
  match junk with
  | EmptyString => true
  | String c j =>
      negb (AlignmentRe.is_digit c)
      && negb (Ascii.eqb c ","%char
               && match j with
                  | String d _ => AlignmentRe.is_digit d
                  | EmptyString => false
                  end)
  end.

Definition marker_text (p : option string) (ixs : list string)
    (junk : string) : string :=
  "~" +:+ prefix_text p +:+ Str.join "," ixs +:+ junk.

(** The indices after the first one, each with its comma. *)
Fixpoint commas (ixs : list string) : string :=
  match ixs with
  | [] => ""
  | d :: ixs' => "," +:+ d +:+ commas ixs'
  end.

(** The number that the digits of a decimal stand for, read from the left
    with [acc] for the digits read before. *)
Fixpoint uint_value (acc : Z) (d : Decimal.uint) : Z :=
  match d with
  | Decimal.Nil => acc
  | Decimal.D0 l => uint_value (10 * acc + 0) l
  | Decimal.D1 l => uint_value (10 * acc + 1) l
  | Decimal.D2 l => uint_value (10 * acc + 2) l
  | Decimal.D3 l => uint_value (10 * acc + 3) l
  | Decimal.D4 l => uint_value (10 * acc + 4) l
  | Decimal.D5 l => uint_value (10 * acc + 5) l
  | Decimal.D6 l => uint_value (10 * acc + 6) l
  | Decimal.D7 l => uint_value (10 * acc + 7) l
  | Decimal.D8 l => uint_value (10 * acc + 8) l
  | Decimal.D9 l => uint_value (10 * acc + 9) l
  end.

(** The size of a node: the number of nodes and edges in it. *)
Fixpoint node_size (n : Node) : nat :=
  match n with
  | mkNode _ edges =>
      S ((fix edges_size (es : list Edge) : nat :=
            match es with
            | [] => O
            | mkEdge _ (TNode m) _ :: es' => S (node_size m + edges_size es')
            | _ :: es' => S (edges_size es')
            end) edges)
  end.

Definition edge_size (e : Edge) : nat :=
  match edge_target e with
  | TNode m => S (node_size m)
  | _ => 1%nat
  end.

(** A text without line feed. *)
Definition one_liner (s : string) : bool := negb (Str.contains s LF).

(** No text that the formatter takes from the node has a line feed:
    identifiers, roles as written, atoms and markers. *)
Fixpoint texts_one_liners (str_marker : AlignmentMarker -> string)
    (n : Node) : bool :=
  match n with
  | mkNode id edges =>
      one_liner (str_opt id)
      && (fix edges_ok (es : list Edge) : bool :=
            match es with
            | [] => true
            | mkEdge role target epidata :: es' =>
                one_liner (format_role role)
                && forallb (fun m => one_liner (str_marker m)) epidata
                && match target with
                   | TNone => true
                   | TAtom c => one_liner (str_const c)
                   | TNode m => texts_one_liners str_marker m
                   end
                && edges_ok es'
            end) edges
  end.

Definition edge_one_liners (str_marker : AlignmentMarker -> string)
    (e : Edge) : bool :=
  match e with
  | mkEdge role target epidata =>
      one_liner (format_role role)
      && forallb (fun m => one_liner (str_marker m)) epidata
      && match target with
         | TNone => true
         | TAtom c => one_liner (str_const c)
         | TNode m => texts_one_liners str_marker m
         end
  end.

(** A computation on one stream that returns is repeated by another on
    every longer stream: it returns the same value and leaves the added
    tokens unread. *)
Definition repeated_on_longer {A} (p p' : Parser A) : Prop :=
  forall (ts rest more : TokenIterator) (a : A),
    p ts = Return (a, rest) -> p' (ts ++ more) = Return (a, rest ++ more).

(** The depth of nesting after the tokens [ts], starting from [depth]: an
    opening parenthesis adds one, a closing one takes one off, and there
    is no depth when a closing parenthesis comes at depth 0. *)
Fixpoint closes (depth : nat) (ts : list Token) : option nat :=
  match ts with
  | [] => Some depth
  | t :: ts' =>
      if is_type t "LPAREN" then closes (S depth) ts'
      else if is_type t "RPAREN" then
        match depth with
        | O => None
        | S depth' => closes depth' ts'
        end
      else closes depth ts'
  end.

(** Tokens whose parentheses match each other. *)
Definition balanced (ts : list Token) : Prop := closes 0 ts = Some 0%nat.

(** Tokens that are an opening parenthesis, balanced tokens and the closing
    parenthesis that matches the first token. *)
Definition enclosed (ts : list Token) : Prop :=
  exists (lp rp : Token) (inner : list Token),
    ts = lp :: inner ++ [rp]
    /\ is_type lp "LPAREN" = true
    /\ is_type rp "RPAREN" = true
    /\ balanced inner.

(** * Properties *)

(** ** Alignment decoding *)

(** C2 (as the code has it): the alignment token [~e.1,2] decodes to a
    marker with prefix ["e."], the dot being part of the captured prefix,
    and indices (1, 2); [~3] decodes to no prefix and indices (3,); the
    malformed [~] decodes to no prefix and no indices, and nothing is
    raised. *)
Theorem parse_alignment_examples :
  forall at_end (c : MarkerClass) (rest : TokenIterator),
    _parse_alignment at_end c (alignment_token "~e.1,2" :: rest)
      = Return (mkMarker c [1; 2]%Z (Some "e."), rest)
    /\ _parse_alignment at_end c (alignment_token "~3" :: rest)
      = Return (mkMarker c [3]%Z None, rest)
    /\ _parse_alignment at_end c (alignment_token "~" :: rest)
      = Return (mkMarker c [] None, rest).
Proof.
  intros at_end c rest. repeat split; reflexivity.
Qed.

(** C2 fails as stated: the prefix decoded from [~e.1,2] is not ["e"]. *)
Lemma parse_alignment_prefix_counterexample :
  ~ (exists m rest,
        _parse_alignment (inl ErrorEndOfInput) Alignment
          [alignment_token "~e.1,2"] = Return (m, rest)
        /\ prefix m = Some "e" /\ indices m = [1; 2]%Z).
Proof.
  intros (m & rest & H & Hp & _).
  vm_compute in H. injection H as <- _. discriminate Hp.
Qed.

(** ** Triples *)

Lemma is_type_mk (ty tx name : string) (v : Constant) :
  is_type (mkToken ty tx v) name = String.eqb ty name.
Proof. reflexivity. Qed.

(** On a stream that hands out a token that is not a caret once the tokens
    of [instance(b, bark) ^ ARG1(b, d)] are read, these tokens parse to the
    triples (b, instance, bark), (b, ARG1, d) in this order, and the
    triples format on one line to the same text. *)
Theorem parse_format_triples_example :
  forall at_end (last : Token),
    at_end = inr last ->
    is_type last "CARET" = false ->
    parse_triples at_end conjunction_tokens = Return (conjunction_triples, [])
    /\ format_triples conjunction_triples false
       = "instance(b, bark) ^ ARG1(b, d)".
Proof.
  intros at_end last -> Hlast. split; [|reflexivity].
  unfold parse_triples, conjunction_tokens, fuel_for, punct_token,
    symbol_token.
  cbn -[is_type]. unfold peek, current, bind.
  repeat (rewrite is_type_mk; cbn -[is_type]).
  rewrite Hlast. reflexivity.
Qed.

Lemma parse_format_triples_example_witness :
  parse_triples (inr end_marker) conjunction_tokens
    = Return (conjunction_triples, [])
  /\ format_triples conjunction_triples false
     = "instance(b, bark) ^ ARG1(b, d)".
Proof.
  apply (parse_format_triples_example (inr end_marker) end_marker);
    reflexivity.
Defined.

(** C8: read from a stream whose [peek] raises once its tokens are read,
    the tokens of [instance(b, bark) ^ ARG1(b, d)] make [parse_triples]
    raise, whatever the error of the stream is: after the last closing
    parenthesis the loop peeks for a caret, and that [peek] is at the end
    of the input.  The two triples the text should parse to format on one
    line to the same text. *)
Theorem parse_triples_raises_at_end_of_input :
  forall e : PenmanSyntaxError,
    parse_triples (inl e) conjunction_tokens = Raise e
    /\ format_triples conjunction_triples false
       = "instance(b, bark) ^ ARG1(b, d)".
Proof.
  intros e. split; [|reflexivity].
  unfold parse_triples, conjunction_tokens, fuel_for, punct_token,
    symbol_token.
  cbn -[is_type]. unfold peek, current, bind.
  repeat (rewrite is_type_mk; cbn -[is_type]).
  reflexivity.
Qed.

(** ** Formatting: empty nodes and roles *)

Section FormatEdgeProperties.

Variable str_marker : AlignmentMarker -> string.
Variable none_is_atomic : bool.

Abbreviation format_node := (_format_node str_marker none_is_atomic).
Abbreviation format_edge := (_format_edge str_marker none_is_atomic).

(** C10: a node whose id is [None] or otherwise false (the empty string,
    zero) formats as [()] whatever its edges are, both on its own and as
    the root of a tree without metadata: its edges are dropped. *)
Theorem format_node_without_id :
  forall (id : option Constant) (edges : list Edge) (indent : option Z)
         (column : Z) (ids : gset Constant) (compact : bool),
    truthy_opt id = false ->
    format_node (mkNode id edges) indent column ids = "()"
    /\ format str_marker none_is_atomic (mkTree (mkNode id edges) [])
         indent compact = "()".
Proof.
  intros id edges indent column ids compact Hid.
  unfold format. cbn [_format_node node metadata map app Str.join].
  rewrite Hid. split; reflexivity.
Qed.

Lemma format_role_cases (role : string) :
  format_role role = "/" \/ Str.startswith (format_role role) ":" = true.
Proof.
  unfold format_role.
  destruct (String.eqb role "/") eqn:Hslash; cbn [negb andb].
  - left. now apply String.eqb_eq.
  - destruct (Str.startswith role ":") eqn:Hcolon; cbn [negb]; right;
      [exact Hcolon | reflexivity].
Qed.

(** C9: [_format_edge] writes an edge as its role, the role epigraphs, a
    space, the target and the target epigraphs, where the role written is
    ["/"] or starts with a colon; a role that is neither ["/"] nor starts
    with a colon is written with a colon put before it, so it does not
    come back as it was given. *)
Theorem format_edge_role :
  forall (role : string) (target : Target) (epidata : list AlignmentMarker)
         (indent : option Z) (column : Z) (ids : gset Constant),
    (exists text : string,
        format_edge (mkEdge role target epidata) indent column ids
        = format_role role +:+ epi_text str_marker 1 epidata +:+ " "
            +:+ text +:+ epi_text str_marker 2 epidata)
    /\ (format_role role = "/"
        \/ Str.startswith (format_role role) ":" = true)
    /\ (role <> "/" -> Str.startswith role ":" = false ->
        format_role role = ":" +:+ role /\ format_role role <> role).
Proof.
  intros role target epidata indent column ids. split; [|split].
  - cbn [_format_edge]. eexists. reflexivity.
  - apply format_role_cases.
  - intros Hslash Hcolon. unfold format_role.
    apply String.eqb_neq in Hslash. rewrite Hslash, Hcolon.
    cbn [negb andb]. split; [reflexivity|].
    intros Heq. apply (f_equal String.length) in Heq.
    change (":" +:+ role) with (String ":" role) in Heq.
    simpl in Heq. lia.
Qed.

End FormatEdgeProperties.

Lemma format_node_without_id_witness :
  _format_node (fun _ => "") true
    (mkNode None [mkEdge ":ARG0" (TAtom (CStr "b")) []]) (Some (-1)%Z) 0 ∅
  = "()"
  /\ format (fun _ => "") true
       (mkTree (mkNode None [mkEdge ":ARG0" (TAtom (CStr "b")) []]) [])
       (Some (-1)%Z) false = "()".
Proof.
  apply (format_node_without_id (fun _ => "") true None
           [mkEdge ":ARG0" (TAtom (CStr "b")) []] (Some (-1)%Z) 0 ∅ false).
  reflexivity.
Defined.

Lemma format_edge_role_witness :
  format_role "ARG0" = ":ARG0" /\ format_role "ARG0" <> "ARG0".
Proof.
  apply (format_edge_role (fun _ => "") true "ARG0" TNone [] None 0 ∅).
  - discriminate.
  - reflexivity.
Defined.

(** ** Formatting: layout of a node *)

Section FormatLayout.

Variable str_marker : AlignmentMarker -> string.
Variable none_is_atomic : bool.

Abbreviation fmt_node := (_format_node str_marker none_is_atomic).
Abbreviation fmt_edge := (_format_edge str_marker none_is_atomic).
Abbreviation fmt_loop := (edges_loop str_marker none_is_atomic).
Abbreviation can_compact := (compactable none_is_atomic).

Lemma format_node_unfold (id : option Constant) (e : Edge) (es : list Edge)
    (indent : option Z) (column : Z) (ids : gset Constant) :
  truthy_opt id = true ->
  fmt_node (mkNode id (e :: es)) indent column ids
  = "(" +:+ str_opt id +:+ " "
      +:+ Str.join (edges_joiner indent column id)
            (fmt_loop indent (edges_column indent column id) ids
               (e :: es) (negb (bool_decide (ids = ∅))) [])
      +:+ ")".
Proof.
  intros Hid. cbn [_format_node]. rewrite Hid. cbn [negb].
  unfold edges_joiner, edges_column.
  destruct indent as [i|]; reflexivity.
Qed.

Lemma edges_loop_plain (indent : option Z) (column : Z) (ids : gset Constant)
    (es : list Edge) (parts : list string) :
  fmt_loop indent column ids es false parts
  = parts ++ map (fun e => fmt_edge e indent column ids) es.
Proof.
  revert parts. induction es as [|e es IH]; intros parts.
  - cbn. now rewrite app_nil_r.
  - cbn [edges_loop map]. unfold close_run. cbn [andb].
    fold (fmt_loop indent column ids). rewrite IH.
    now rewrite <- app_assoc.
Qed.

Lemma one_line_snoc (texts : list string) (t : string) :
  one_line (texts ++ [t]) = [Str.join " " (texts ++ [t])].
Proof. destruct texts; reflexivity. Qed.

Lemma edges_loop_compact (indent : option Z) (column : Z)
    (ids : gset Constant) (es : list Edge) (parts : list string) :
  let f := fun e => fmt_edge e indent column ids in
  fmt_loop indent column ids es true parts
  = match after_run (can_compact ids) es with
    | [] => [Str.join " " (parts ++ map f (leading_run (can_compact ids) es))]
    | rest =>
        one_line (parts ++ map f (leading_run (can_compact ids) es))
        ++ map f rest
    end.
Proof.
  intros f. revert parts. induction es as [|e es IH]; intros parts.
  - cbn. now rewrite app_nil_r.
  - cbn [edges_loop after_run leading_run].
    fold (fmt_loop indent column ids). unfold close_run, compactable.
    destruct (is_atomic none_is_atomic (edge_target e)
              && negb (in_ids (edge_target e) ids)) eqn:Hc.
    + apply andb_true_iff in Hc as [Ha Hi]. rewrite Ha.
      apply negb_true_iff in Hi. rewrite Hi. cbn [negb orb andb].
      rewrite IH. fold f. cbn [map]. unfold compactable.
      now rewrite <- app_assoc.
    + assert (negb (is_atomic none_is_atomic (edge_target e))
              || in_ids (edge_target e) ids = true) as ->.
      { apply andb_false_iff in Hc as [Ha | Hi].
        - rewrite Ha. reflexivity.
        - apply negb_false_iff in Hi. rewrite Hi. apply orb_true_r. }
      cbn [andb map]. rewrite app_nil_r.
      destruct parts as [|p parts]; rewrite edges_loop_plain; reflexivity.
Qed.

Lemma after_run_nil {A} (p : A -> bool) (l : list A) :
  after_run p l = [] -> leading_run p l = l.
Proof.
  induction l as [|x l IH]; [reflexivity|]. cbn.
  destruct (p x); [|discriminate]. intros H. now rewrite IH.
Qed.

(** The text of a node that has an identifier and edges: the edges are
    written at the column [edges_column] and joined by [edges_joiner];
    without identifiers to compare with ([ids] empty) each edge is a part
    of its own, and otherwise the leading run of compactable edges is one
    part. *)
Lemma format_node_layout (id : option Constant) (edges : list Edge)
    (indent : option Z) (column : Z) (ids : gset Constant) :
  truthy_opt id = true ->
  edges <> [] ->
  let f := fun e => fmt_edge e indent (edges_column indent column id) ids in
  fmt_node (mkNode id edges) indent column ids
  = "(" +:+ str_opt id +:+ " "
      +:+ Str.join (edges_joiner indent column id)
            (if bool_decide (ids = ∅) then map f edges
             else one_line (map f (leading_run (can_compact ids) edges))
                  ++ map f (after_run (can_compact ids) edges))
      +:+ ")".
Proof.
  intros Hid Hedges f. destruct edges as [|e es]; [congruence|].
  rewrite format_node_unfold by exact Hid.
  destruct (bool_decide (ids = ∅)); cbn [negb].
  - now rewrite edges_loop_plain.
  - rewrite edges_loop_compact. cbn [app]. fold f.
    destruct (after_run (can_compact ids) (e :: es)) as [|r rest] eqn:Hrest;
      [|reflexivity].
    rewrite (after_run_nil _ _ Hrest). cbn [map one_line app].
    reflexivity.
Qed.

Lemma node_ids_nonempty (n : Node) :
  truthy_opt (node_id n) = true ->
  (list_to_set (node_ids n) : gset Constant) <> ∅.
Proof.
  destruct n as [[i|] edges]; [|discriminate]. intros _.
  cbn [node_ids app list_to_set]. set_solver.
Qed.

(** C6: with [compact=True] the identifiers compared with are those of the
    nodes of the tree; for a tree whose root has an identifier, every node
    with an identifier and edges is written with the leading run of its
    edges whose targets are atomic and are no node's identifier on one line
    after the node's identifier, separated by spaces, and from the first
    other edge on with one edge per part, the parts joined by the joiner;
    so [(a :x 1 :y two :z (b))] has [:x 1 :y two] on the first line and a
    line break before [:z]. *)
Theorem compact_layout :
  forall (tree : Tree) (indent : option Z),
    truthy_opt (node_id (node tree)) = true ->
    let ids : gset Constant := list_to_set (node_ids (node tree)) in
    format str_marker none_is_atomic tree indent true
    = Str.join LF
        (map metadata_line (metadata tree)
         ++ [fmt_node (node tree) indent 0 ids])
    /\ (forall (id : option Constant) (edges : list Edge) (column : Z),
          truthy_opt id = true ->
          edges <> [] ->
          let f :=
            fun e => fmt_edge e indent (edges_column indent column id) ids in
          fmt_node (mkNode id edges) indent column ids
          = "(" +:+ str_opt id +:+ " "
              +:+ Str.join (edges_joiner indent column id)
                    (one_line (map f (leading_run (can_compact ids) edges))
                     ++ map f (after_run (can_compact ids) edges))
              +:+ ")")
    /\ format str_marker none_is_atomic (mkTree two_atoms_then_node [])
         (Some (-1)%Z) true
       = "(a :x 1 :y two" +:+ LF +:+ "   :z (b))".
Proof.
  intros tree indent Hroot ids. split; [|split].
  - unfold format. cbn [node metadata]. f_equal. f_equal.
    apply map_ext. now intros [k v].
  - intros id edges column Hid Hedges f.
    rewrite format_node_layout by assumption.
    rewrite bool_decide_eq_false_2; [reflexivity|].
    now apply node_ids_nonempty.
  - reflexivity.
Qed.

(** C7 (as the code has it): under [indent=-1] a node with an identifier
    and edges writes its edges at the column it was given plus
    [len(str(id)) + 2], which is also the width of the indentation in its
    joiner; and an edge whose target is a node formats that node at the
    edge's column plus [len(role) + len(role_epi) + 1], where [role] is the
    role as it is written, that is with the colon put before it when it was
    missing, and [role_epi] is the text of the role epigraphs. *)
Theorem auto_indent_columns :
  forall (id : option Constant) (edges : list Edge) (column : Z)
         (ids : gset Constant),
    truthy_opt id = true ->
    edges <> [] ->
    let col := (column + (Str.len (str_opt id) + 2))%Z in
    let f := fun e => fmt_edge e (Some (-1)%Z) col ids in
    fmt_node (mkNode id edges) (Some (-1)%Z) column ids
    = "(" +:+ str_opt id +:+ " "
        +:+ Str.join (LF +:+ Str.repeat " " col)
              (if bool_decide (ids = ∅) then map f edges
               else one_line (map f (leading_run (can_compact ids) edges))
                    ++ map f (after_run (can_compact ids) edges))
        +:+ ")"
    /\ (forall (role : string) (n : Node) (epidata : list AlignmentMarker)
               (c : Z),
          let role' := format_role role in
          let role_epi := epi_text str_marker 1 epidata in
          fmt_edge (mkEdge role (TNode n) epidata) (Some (-1)%Z) c ids
          = role' +:+ role_epi +:+ " "
              +:+ fmt_node n (Some (-1)%Z)
                    (c + (Str.len role' + Str.len role_epi + 1)) ids
              +:+ epi_text str_marker 2 epidata).
Proof.
  intros id edges column ids Hid Hedges col f. split.
  - rewrite format_node_layout by assumption. reflexivity.
  - intros role n epidata c role' role_epi. reflexivity.
Qed.

End FormatLayout.

Lemma compact_layout_witness :
  format (fun _ => "") true (mkTree two_atoms_then_node []) (Some (-1)%Z) true
  = "(a :x 1 :y two" +:+ LF +:+ "   :z (b))".
Proof.
  apply (compact_layout (fun _ => "") true (mkTree two_atoms_then_node [])
           (Some (-1)%Z)).
  reflexivity.
Defined.

Lemma auto_indent_columns_witness :
  _format_node (fun _ => "") true two_edge_node (Some (-1)%Z) 9 ∅
  = "(b :x 1" +:+ LF +:+ Str.repeat " " 12 +:+ ":y 2)".
Proof.
  refine (eq_trans
    (proj1 (auto_indent_columns (fun _ => "") true (Some (CStr "b"))
              (node_edges two_edge_node) 9 ∅ _ _)) _).
  - reflexivity.
  - discriminate.
  - reflexivity.
Defined.

(** C7 fails as stated for a role given without its colon: under the edge
    [ARG0] at column 3 the nested node is formatted at column 9, one more
    than 3 + len("ARG0") + 0 + 1. *)
Lemma auto_indent_role_counterexample :
  _format_edge (fun _ => "") true (mkEdge "ARG0" (TNode two_edge_node) [])
    (Some (-1)%Z) 3 ∅
  = ":ARG0 " +:+ _format_node (fun _ => "") true two_edge_node
                   (Some (-1)%Z) 9 ∅
  /\ _format_edge (fun _ => "") true (mkEdge "ARG0" (TNode two_edge_node) [])
       (Some (-1)%Z) 3 ∅
     <> ":ARG0 " +:+ _format_node (fun _ => "") true two_edge_node
                       (Some (-1)%Z) (3 + (Str.len "ARG0" + Str.len "" + 1)) ∅.
Proof.
  split; [reflexivity|]. vm_compute. discriminate.
Qed.

(** ** The token stream *)

Section StreamFacts.

Variable at_end : PenmanSyntaxError + Token.

Lemma type_in_single (t : Token) (name : string) :
  type_in t [name] = is_type t name.
Proof. unfold type_in, is_type. cbn. apply orb_false_r. Qed.

Lemma type_in_elem (t : Token) (names : list string) :
  type_in t names = true <-> type t ∈ names.
Proof.
  unfold type_in. rewrite existsb_exists. split.
  - intros (n & Hin & Heq). apply String.eqb_eq in Heq. subst n.
    now apply list_elem_of_In.
  - intros Hin. exists (type t). split; [now apply list_elem_of_In|].
    apply String.eqb_refl.
Qed.

Lemma is_type_eq (t : Token) (name : string) :
  is_type t name = true <-> type t = name.
Proof. unfold is_type. apply String.eqb_eq. Qed.

Lemma peek_cons (t : Token) (ts : TokenIterator) :
  peek at_end (t :: ts) = Return (t, t :: ts).
Proof. reflexivity. Qed.

Lemma next_cons (t : Token) (ts : TokenIterator) :
  next at_end (t :: ts) = Return (t, ts).
Proof. reflexivity. Qed.

Lemma expect_cons (choices : list string) (t : Token) (ts : TokenIterator) :
  type_in t choices = true ->
  expect at_end choices (t :: ts) = Return (t, ts).
Proof. intros H. unfold expect. cbn. now rewrite H. Qed.

Lemma expect_cons_other (choices : list string) (t : Token)
    (ts : TokenIterator) :
  type_in t choices = false ->
  expect at_end choices (t :: ts) = Raise (ErrorExpected choices t).
Proof. intros H. unfold expect. cbn. now rewrite H. Qed.

Lemma parse_alignment_cons (c : MarkerClass) (t : Token)
    (ts : TokenIterator) :
  is_type t "ALIGNMENT" = true ->
  _parse_alignment at_end c (t :: ts)
  = Return (decode_alignment c (text t), ts).
Proof.
  intros H. unfold _parse_alignment, bind.
  rewrite expect_cons by now rewrite type_in_single. reflexivity.
Qed.

End StreamFacts.

(** ** The target of an edge *)

Section EdgeTarget.

Variable at_end : PenmanSyntaxError + Token.

Lemma atom_type_facts (t : Token) :
  type_in t ATOMS = true ->
  is_type t "ALIGNMENT" = false /\ is_type t "LPAREN" = false.
Proof.
  intros H. apply type_in_elem in H. unfold is_type, ATOMS in *.
  set_unfold in H.
  destruct H as [-> | [-> | [-> | [-> | []]]]]; split; reflexivity.
Qed.

Lemma lparen_type_facts (t : Token) :
  is_type t "LPAREN" = true ->
  is_type t "ALIGNMENT" = false /\ type_in t ATOMS = false.
Proof.
  intros H. apply is_type_eq in H. unfold is_type, type_in. rewrite H.
  split; reflexivity.
Qed.

Lemma role_rparen_type_facts (t : Token) :
  type_in t ["ROLE"; "RPAREN"] = true ->
  is_type t "ALIGNMENT" = false /\ type_in t ATOMS = false
  /\ is_type t "LPAREN" = false.
Proof.
  intros H. apply type_in_elem in H. unfold is_type, type_in.
  set_unfold in H. destruct H as [-> | [-> | []]]; repeat split; reflexivity.
Qed.

(** The state of [_parse_edge] once the role and an optional role alignment
    are read from the stream [r :: with_alignment al ts]. *)
Lemma parse_edge_after_role (fuel : nat) (r : Token) (al : option Token)
    (nxt : Token) (rest : TokenIterator) :
  is_type r "ROLE" = true ->
  match al with
  | Some a => is_type a "ALIGNMENT" = true
  | None => is_type nxt "ALIGNMENT" = false
  end ->
  _parse_edge at_end (S fuel) (r :: with_alignment al (nxt :: rest))
  = (if type_in nxt ATOMS then
       let* a := next at_end in
       let* t' := peek at_end in
       let* epidata :=
         (if is_type t' "ALIGNMENT" then
            let* m := _parse_alignment at_end Alignment in
            ret (role_epigraph al ++ [m])
          else ret (role_epigraph al)) in
       ret (mkEdge (text r) (TAtom (value a)) epidata)
     else if is_type nxt "LPAREN" then
       let* n := _parse_node at_end fuel in
       ret (mkEdge (text r) (TNode n) (role_epigraph al))
     else if negb (type_in nxt ["ROLE"; "RPAREN"]) then
       raise (error "Expected: ATOM, LPAREN" nxt)
     else ret (mkEdge (text r) TNone (role_epigraph al))) (nxt :: rest).
Proof.
  intros Hr Hal. cbn [_parse_edge]. unfold bind at 1.
  rewrite expect_cons by now rewrite type_in_single.
  destruct al as [a|]; cbn [with_alignment role_epigraph].
  - unfold bind at 1. rewrite peek_cons. unfold bind at 1. rewrite Hal.
    unfold bind at 1. rewrite parse_alignment_cons by exact Hal.
    cbn [ret]. unfold bind at 1. rewrite peek_cons. reflexivity.
  - unfold bind at 1. rewrite peek_cons. unfold bind at 1. rewrite Hal.
    cbn [ret]. unfold bind at 1. rewrite peek_cons. reflexivity.
Qed.

(** C4: once [_parse_edge] has read the role and an optional role
    alignment, an atom as the next token becomes the target (and an
    alignment token after it a target epigraph); an opening parenthesis
    makes the target the node parsed from there; another role or a closing
    parenthesis leaves the edge with the target [None] and is not read; any
    other token raises the error [Expected: ATOM, LPAREN] at that token.
    The tokens of [(a :ARG0 :ARG1 b)] parse to the node [a] with the two
    edges [:ARG0] without target and [:ARG1] with the atom [b]. *)
Theorem parse_edge_target_cases :
  forall (fuel : nat) (r : Token) (al : option Token) (nxt : Token)
         (rest : TokenIterator),
    is_type r "ROLE" = true ->
    match al with
    | Some a => is_type a "ALIGNMENT" = true
    | None => is_type nxt "ALIGNMENT" = false
    end ->
    let epis := role_epigraph al in
    let ts := r :: with_alignment al (nxt :: rest) in
    (type_in nxt ATOMS = true ->
     _parse_edge at_end (S fuel) ts
     = match peek at_end rest with
       | Return (p, _) =>
           if is_type p "ALIGNMENT" then
             Return (mkEdge (text r) (TAtom (value nxt))
                       (epis ++ [decode_alignment Alignment (text p)]),
                     tail rest)
           else Return (mkEdge (text r) (TAtom (value nxt)) epis, rest)
       | Raise e => Raise e
       | OutOfFuel => OutOfFuel
       end)
    /\ (is_type nxt "LPAREN" = true ->
        _parse_edge at_end (S fuel) ts
        = match _parse_node at_end fuel (nxt :: rest) with
          | Return (n, rest') =>
              Return (mkEdge (text r) (TNode n) epis, rest')
          | Raise e => Raise e
          | OutOfFuel => OutOfFuel
          end)
    /\ (type_in nxt ["ROLE"; "RPAREN"] = true ->
        _parse_edge at_end (S fuel) ts
        = Return (mkEdge (text r) TNone epis, nxt :: rest))
    /\ (type_in nxt ATOMS = false ->
        is_type nxt "LPAREN" = false ->
        type_in nxt ["ROLE"; "RPAREN"] = false ->
        _parse_edge at_end (S fuel) ts
        = Raise (ErrorAt "Expected: ATOM, LPAREN" nxt))
    /\ parse at_end dangling_tokens
       = Return
           (mkTree
              (mkNode (Some (CStr "a"))
                 [mkEdge ":ARG0" TNone [];
                  mkEdge ":ARG1" (TAtom (CStr "b")) []]) [],
            []).
Proof.
  intros fuel r al nxt rest Hr Hal epis ts. subst epis ts.
  rewrite (parse_edge_after_role fuel r al nxt rest Hr Hal).
  repeat split.
  - intros Hatom. rewrite Hatom. unfold bind at 1. rewrite next_cons.
    unfold bind at 1. unfold peek at 1.
    unfold peek. destruct (current at_end rest) as [e|p] eqn:Hcur;
      [reflexivity|].
    destruct (is_type p "ALIGNMENT") eqn:Hp; [|reflexivity].
    unfold bind at 1. unfold _parse_alignment, bind, expect.
    rewrite Hcur, type_in_single, Hp. reflexivity.
  - intros Hl. destruct (lparen_type_facts nxt Hl) as [_ ->]. rewrite Hl.
    unfold bind.
    destruct (_parse_node at_end fuel (nxt :: rest)) as [[n rest']|e|];
      reflexivity.
  - intros Hrr. destruct (role_rparen_type_facts nxt Hrr) as (_ & -> & ->).
    rewrite Hrr. reflexivity.
  - intros -> -> ->. reflexivity.
Qed.

End EdgeTarget.

Lemma parse_edge_target_cases_witness :
  _parse_edge (inl ErrorEndOfInput) 1
    [role_token ":ARG0"; role_token ":ARG1"; symbol_token "b";
     punct_token "RPAREN" ")"]
  = Return (mkEdge ":ARG0" TNone [],
            [role_token ":ARG1"; symbol_token "b"; punct_token "RPAREN" ")"]).
Proof.
  apply (parse_edge_target_cases (inl ErrorEndOfInput) 0
           (role_token ":ARG0") None (role_token ":ARG1")
           [symbol_token "b"; punct_token "RPAREN" ")"]);
    reflexivity.
Defined.

(** ** Strings *)

Section StringFacts.

Lemma append_cons (c : ascii) (a b : string) :
  String c a +:+ b = String c (a +:+ b).
Proof. reflexivity. Qed.

Lemma append_length (a b : string) :
  String.length (a +:+ b) = (String.length a + String.length b)%nat.
Proof.
  induction a as [|c a IH]; [reflexivity|].
  rewrite append_cons. cbn [String.length]. now rewrite IH.
Qed.

Lemma append_assoc (a b c : string) : (a +:+ b) +:+ c = a +:+ b +:+ c.
Proof.
  induction a as [|x a IH]; [reflexivity|].
  rewrite !append_cons. now rewrite IH.
Qed.

Lemma append_nil_r (a : string) : a +:+ "" = a.
Proof.
  induction a as [|x a IH]; [reflexivity|].
  rewrite append_cons. now rewrite IH.
Qed.

Lemma drop_length (n : nat) (s : string) :
  (n <= String.length s)%nat ->
  (String.length (Str.drop n s) + n)%nat = String.length s.
Proof.
  revert s. induction n as [|n IH]; intros s Hn; cbn.
  - lia.
  - destruct s as [|c s]; cbn in *; [lia|]. specialize (IH s). lia.
Qed.

Lemma startswith_length (s p : string) :
  Str.startswith s p = true -> (String.length p <= String.length s)%nat.
Proof.
  revert s. induction p as [|a p IH]; intros s H; cbn in *; [lia|].
  destruct s as [|b s]; [discriminate|].
  apply andb_true_iff in H as [_ H]. apply IH in H. cbn. lia.
Qed.

(** [rpartition] cuts the text in three. *)
Lemma rfind_split_length (sep s h t : string) :
  Str.rfind_split sep s = Some (h, t) ->
  (String.length h + String.length sep + String.length t)%nat
  = String.length s.
Proof.
  revert h t. induction s as [|c s IH]; intros h t H; cbn in H.
  - destruct sep; cbn in H; [|discriminate]. now inversion H.
  - destruct (Str.rfind_split sep s) as [[h' t']|].
    + injection H as <- <-. specialize (IH h' t' eq_refl).
      cbn [String.length]. lia.
    + destruct (Str.startswith (String c s) sep) eqn:Hp; [|discriminate].
      injection H as <- <-. apply startswith_length in Hp.
      pose proof (drop_length _ _ Hp) as Hd. cbn [String.length] in *. lia.
Qed.

Lemma rfind_split_none (sep s : string) :
  Str.contains s sep = false -> Str.rfind_split sep s = None.
Proof.
  induction s as [|c s IH]; cbn; intros H.
  - apply orb_false_iff in H as [H _]. now rewrite H.
  - apply orb_false_iff in H as [Hp H]. rewrite (IH H).
    cbn in Hp. now rewrite Hp.
Qed.

(** The last occurrence of two colons in a row is the one before a text
    that has none and does not start with a colon. *)
Lemma rfind_split_colons (x m : string) :
  Str.contains m "::" = false ->
  Str.startswith m ":" = false ->
  Str.rfind_split "::" (x +:+ "::" +:+ m) = Some (x, m).
Proof.
  intros Hm Hc. induction x as [|c x IH].
  - change ("" +:+ "::" +:+ m) with (String ":" (String ":" m)).
    cbn [Str.rfind_split]. rewrite (rfind_split_none _ _ Hm).
    cbn [Str.startswith] in *. rewrite Hc. cbn.
    reflexivity.
  - change (String c x +:+ "::" +:+ m) with (String c (x +:+ "::" +:+ m)).
    cbn [Str.rfind_split]. now rewrite IH.
Qed.

(** The first space of [key value] is the one after a key without spaces. *)
Lemma find_split_space (k v : string) :
  Str.contains k " " = false ->
  Str.find_split " " (k +:+ " " +:+ v) = Some (k, v).
Proof.
  induction k as [|c k IH]; intros H.
  - reflexivity.
  - cbn [Str.contains] in H. apply orb_false_iff in H as [Hp H].
    change (String c k +:+ " " +:+ v) with (String c (k +:+ " " +:+ v)).
    cbn [Str.find_split]. cbn [Str.startswith] in *.
    apply andb_false_iff in Hp as [Hp | Hp]; [|discriminate].
    rewrite Hp. cbn [andb]. now rewrite (IH H).
Qed.

End StringFacts.

(** ** Metadata *)

Section CommentFacts.

Lemma truthy_length (s : string) :
  Str.truthy s = true -> (0 < String.length s)%nat.
Proof. destruct s; [discriminate|]. cbn. lia. Qed.

Lemma rpartition_shorter (c c' found meta : string) :
  Str.truthy c = true ->
  Str.rpartition c "::" = (c', found, meta) ->
  (String.length c' < String.length c)%nat.
Proof.
  intros Hc. unfold Str.rpartition.
  destruct (Str.rfind_split "::" c) as [[h t]|] eqn:Hf; intros [= <- <- <-].
  - apply rfind_split_length in Hf. cbn [String.length] in Hf. lia.
  - now apply truthy_length.
Qed.

(** The turns of the loop over a comment do not depend on the bound, once
    it exceeds the length of the comment. *)
Lemma comment_loop_fuel (fuel1 fuel2 : nat) (c : string) (md : Dict) :
  (String.length c < fuel1)%nat ->
  (String.length c < fuel2)%nat ->
  comment_loop fuel1 c md = comment_loop fuel2 c md.
Proof.
  revert fuel2 c md. induction fuel1 as [|fuel1 IH]; intros fuel2 c md H1 H2;
    [lia|].
  destruct fuel2 as [|fuel2]; [lia|]. cbn [comment_loop].
  destruct (Str.truthy c) eqn:Hc; [|reflexivity].
  destruct (Str.rpartition c "::") as [[c' found] meta] eqn:Hr.
  pose proof (rpartition_shorter _ _ _ _ Hc Hr) as Hlt.
  destruct (Str.truthy found).
  - destruct (Str.partition meta " ") as [[key sp] value].
    apply IH; lia.
  - apply IH; lia.
Qed.

(** [parse_comment] is the loop [while comment: ...] of [_parse_comments]:
    it satisfies the loop's equation. *)
Lemma parse_comment_unfold (c : string) (md : Dict) :
  parse_comment c md
  = if Str.truthy c then
      let '(c', found, meta) := Str.rpartition c "::" in
      if Str.truthy found then
        let '(key, _, value) := Str.partition meta " " in
        parse_comment c' (dict_set md key value)
      else parse_comment c' md
    else md.
Proof.
  unfold parse_comment at 1. cbn [comment_loop].
  destruct (Str.truthy c) eqn:Hc; [|reflexivity].
  destruct (Str.rpartition c "::") as [[c' found] meta] eqn:Hr.
  pose proof (rpartition_shorter _ _ _ _ Hc Hr) as Hlt.
  destruct (Str.truthy found).
  - destruct (Str.partition meta " ") as [[key sp] value].
    unfold parse_comment. apply comment_loop_fuel; lia.
  - unfold parse_comment. apply comment_loop_fuel; lia.
Qed.

Lemma pairs_text_snoc (pairs : list (string * string)) (kv : string * string) :
  pairs_text (pairs ++ [kv]) = pairs_text pairs +:+ "::" +:+ pair_body kv.
Proof.
  induction pairs as [|p pairs IH]; cbn [pairs_text app].
  - now rewrite append_nil_r.
  - rewrite IH. now rewrite !append_assoc.
Qed.

Lemma parse_comment_without_pairs (pre : string) (md : Dict) :
  Str.contains pre "::" = false -> parse_comment pre md = md.
Proof.
  intros Hpre. rewrite parse_comment_unfold.
  destruct (Str.truthy pre); [|reflexivity].
  unfold Str.rpartition. rewrite (rfind_split_none _ _ Hpre).
  cbn [Str.truthy]. now rewrite parse_comment_unfold.
Qed.

Lemma truthy_with_colons (x m : string) :
  Str.truthy (x +:+ "::" +:+ m) = true.
Proof. destruct x; reflexivity. Qed.

(** A comment that holds pairs gives them to the dictionary from the right
    to the left. *)
Lemma parse_comment_pairs (rpairs : list (string * string)) (pre : string)
    (md : Dict) :
  Str.contains pre "::" = false ->
  forallb well_formed_pair rpairs = true ->
  parse_comment (pre +:+ pairs_text (rev rpairs)) md = dict_update md rpairs.
Proof.
  intros Hpre. revert md.
  induction rpairs as [|kv rpairs IH]; intros md Hwf.
  - cbn [rev pairs_text]. rewrite append_nil_r.
    now apply parse_comment_without_pairs.
  - cbn [forallb] in Hwf. apply andb_true_iff in Hwf as [Hkv Hwf].
    unfold well_formed_pair in Hkv.
    apply andb_true_iff in Hkv as [Hkv Hbody].
    apply andb_true_iff in Hkv as [Hspace Hcolon].
    apply negb_true_iff in Hbody, Hspace, Hcolon.
    cbn [rev]. rewrite pairs_text_snoc, <- append_assoc.
    rewrite parse_comment_unfold, truthy_with_colons.
    unfold Str.rpartition. rewrite rfind_split_colons; [|exact Hbody|].
    + cbn [Str.truthy]. unfold Str.partition, pair_body.
      rewrite (find_split_space _ _ Hspace).
      rewrite (IH _ Hwf). reflexivity.
    + unfold pair_body. destruct (fst kv) as [|c k]; [reflexivity|].
      exact Hcolon.
Qed.

End CommentFacts.

Section DictFacts.

Lemma dict_keys_set (d : Dict) (k v : string) :
  dict_keys (dict_set d k v)
  = if bool_decide (k ∈ dict_keys d) then dict_keys d else dict_keys d ++ [k].
Proof.
  induction d as [|[k0 v0] d IH]; [reflexivity|].
  cbn [dict_set dict_keys map fst]. destruct (String.eqb k0 k) eqn:Hk.
  - apply String.eqb_eq in Hk. subst k0.
    rewrite bool_decide_eq_true_2 by apply list_elem_of_here. reflexivity.
  - apply String.eqb_neq in Hk. cbn [dict_keys map fst].
    fold (dict_keys (dict_set d k v)). rewrite IH. fold (dict_keys d).
    destruct (bool_decide (k ∈ dict_keys d)) eqn:Hin.
    + apply bool_decide_eq_true in Hin.
      rewrite bool_decide_eq_true_2 by now apply list_elem_of_further.
      reflexivity.
    + apply bool_decide_eq_false in Hin.
      rewrite bool_decide_eq_false_2; [reflexivity|].
      rewrite elem_of_cons. intros [Heq | Hin']; congruence.
Qed.

Lemma dict_get_set (d : Dict) (k v k' : string) :
  dict_get (dict_set d k v) k'
  = if String.eqb k k' then Some v else dict_get d k'.
Proof.
  induction d as [|[k0 v0] d IH]; [reflexivity|].
  cbn [dict_set]. destruct (String.eqb k0 k) eqn:Hk.
  - apply String.eqb_eq in Hk. subst k0. cbn [dict_get].
    destruct (String.eqb k k'); reflexivity.
  - cbn [dict_get]. rewrite IH. destruct (String.eqb k0 k') eqn:Hk'.
    + apply String.eqb_eq in Hk'. subst k'.
      rewrite String.eqb_sym, Hk. reflexivity.
    + reflexivity.
Qed.

Lemma dict_get_app (d1 d2 : Dict) (k : string) :
  dict_get (d1 ++ d2) k
  = match dict_get d1 k with
    | Some v => Some v
    | None => dict_get d2 k
    end.
Proof.
  induction d1 as [|[k0 v0] d1 IH]; [reflexivity|].
  cbn [app dict_get]. destruct (String.eqb k0 k); [reflexivity | exact IH].
Qed.

Lemma first_keys_ext (seen1 seen2 keys : list string) :
  (forall x, x ∈ seen1 <-> x ∈ seen2) ->
  first_keys seen1 keys = first_keys seen2 keys.
Proof.
  revert seen1 seen2. induction keys as [|k keys IH]; intros s1 s2 Hs;
    [reflexivity|].
  cbn [first_keys]. rewrite (bool_decide_ext _ _ (Hs k)).
  destruct (bool_decide (k ∈ s2)).
  - now apply IH.
  - f_equal. apply IH. intros x. rewrite !elem_of_cons, Hs. tauto.
Qed.

(** The keys of an updated dictionary: the keys it had, then the new keys
    in the order of their first entry. *)
Lemma dict_update_keys (entries : list (string * string)) (d : Dict) :
  dict_keys (dict_update d entries)
  = dict_keys d ++ first_keys (dict_keys d) (map fst entries).
Proof.
  revert d. induction entries as [|[k v] entries IH]; intros d.
  - cbn. now rewrite app_nil_r.
  - cbn [dict_update fold_left map fst snd first_keys].
    fold (dict_update (dict_set d k v) entries). rewrite IH, dict_keys_set.
    destruct (bool_decide (k ∈ dict_keys d)); [reflexivity|].
    rewrite <- app_assoc. cbn [app]. do 2 f_equal.
    apply first_keys_ext. intros x.
    rewrite elem_of_app, !elem_of_cons, elem_of_nil. tauto.
Qed.

(** The value of a key in an updated dictionary is that of its last
    entry. *)
Lemma dict_update_get (entries : list (string * string)) (d : Dict)
    (k : string) :
  dict_get (dict_update d entries) k
  = match dict_get (rev entries) k with
    | Some v => Some v
    | None => dict_get d k
    end.
Proof.
  revert d. induction entries as [|[k0 v0] entries IH]; intros d;
    [reflexivity|].
  cbn [dict_update fold_left fst snd rev].
  fold (dict_update (dict_set d k0 v0) entries).
  rewrite IH, dict_get_app, dict_get_set. cbn [dict_get].
  destruct (dict_get (rev entries) k); [reflexivity|].
  destruct (String.eqb k0 k); reflexivity.
Qed.

End DictFacts.

Section Metadata.

Variable at_end : PenmanSyntaxError + Token.

Lemma forallb_rev {A} (p : A -> bool) (l : list A) :
  forallb p (rev l) = forallb p l.
Proof.
  induction l as [|x l IH]; [reflexivity|].
  cbn [rev forallb]. rewrite forallb_app, IH. cbn. 
  rewrite andb_true_r. apply andb_comm.
Qed.

Lemma parse_comment_text (c : string * list (string * string)) (md : Dict) :
  well_formed_comment c = true ->
  parse_comment (comment_text c) md = dict_update md (rev (snd c)).
Proof.
  unfold well_formed_comment, comment_text. intros H.
  apply andb_true_iff in H as [Hpre Hwf]. apply negb_true_iff in Hpre.
  rewrite <- (rev_involutive (snd c)) at 1.
  apply parse_comment_pairs; [exact Hpre|]. now rewrite forallb_rev.
Qed.

(** Comment tokens are read one after the other until a token that is not
    a comment comes. *)
Lemma parse_comments_loop_entries
    (comments : list (string * list (string * string))) :
  forall (tokens : list Token) (fuel : nat) (md : Dict)
         (rest : TokenIterator),
    map text tokens = map comment_text comments ->
    forallb (fun t => is_type t "COMMENT") tokens = true ->
    forallb well_formed_comment comments = true ->
    not_comment_next at_end rest = true ->
    (length comments < fuel)%nat ->
    _parse_comments_loop at_end fuel md (tokens ++ rest)
    = Return (dict_update md (entries_of comments), rest).
Proof.
  induction comments as [|c comments IH];
    intros tokens fuel md rest Htext Htype Hwf Hrest Hfuel;
    (destruct fuel as [|fuel]; [cbn in Hfuel; lia|]).
  - destruct tokens; [|discriminate]. cbn [app _parse_comments_loop].
    unfold not_comment_next in Hrest. unfold bind, peek.
    destruct (current at_end rest) as [e|t]; [discriminate|].
    apply negb_true_iff in Hrest. rewrite Hrest. reflexivity.
  - destruct tokens as [|t tokens]; [discriminate|].
    injection Htext as Ht Htext. cbn [forallb] in Htype, Hwf.
    apply andb_true_iff in Htype as [Hc Htype].
    apply andb_true_iff in Hwf as [Hwfc Hwf].
    cbn [app _parse_comments_loop]. unfold bind at 1. rewrite peek_cons.
    rewrite Hc. unfold bind at 1. rewrite next_cons.
    rewrite (IH tokens fuel _ rest Htext Htype Hwf Hrest)
      by (cbn [length] in Hfuel; lia).
    rewrite Ht, (parse_comment_text _ _ Hwfc).
    unfold entries_of, dict_update. cbn [flat_map].
    now rewrite fold_left_app.
Qed.

(** C5 (as the code has it): the comments are read in document order and
    the pairs of one comment are entered from the right to the left; an
    entry for a key that is present replaces its value in place.  So the
    keys are listed in the order of their first entry and every key has the
    value of its last entry; the comments [# ::id 1], [# ::date 2020],
    [# ::id 3] give id: 3, date: 2020 with id listed before date. *)
Theorem parse_comments_metadata :
  forall (fuel : nat) (tokens : list Token)
         (comments : list (string * list (string * string)))
         (rest : TokenIterator),
    map text tokens = map comment_text comments ->
    forallb (fun t => is_type t "COMMENT") tokens = true ->
    forallb well_formed_comment comments = true ->
    not_comment_next at_end rest = true ->
    (length comments < fuel)%nat ->
    let entries := entries_of comments in
    (exists d : Dict,
        _parse_comments at_end fuel (tokens ++ rest) = Return (d, rest)
        /\ d = dict_update [] entries
        /\ dict_keys d = first_keys [] (map fst entries)
        /\ (forall k, dict_get d k = dict_get (rev entries) k))
    /\ _parse_comments at_end 4
         (map comment_token ["# ::id 1"; "# ::date 2020"; "# ::id 3"] ++ rest)
       = Return ([("id", "3"); ("date", "2020")], rest).
Proof.
  intros fuel tokens comments rest Htext Htype Hwf Hrest Hfuel entries.
  split.
  - exists (dict_update [] entries). split; [|split; [|split]].
    + now apply parse_comments_loop_entries.
    + reflexivity.
    + apply (dict_update_keys entries []).
    + intros k. rewrite dict_update_get.
      destruct (dict_get (rev entries) k); reflexivity.
  - unfold _parse_comments.
    rewrite (parse_comments_loop_entries id_date_id); try reflexivity.
    + exact Hrest.
    + cbn. lia.
Qed.

End Metadata.

Lemma parse_comments_metadata_witness :
  _parse_comments (inl ErrorEndOfInput) 4
    (map comment_token ["# ::id 1"; "# ::date 2020"; "# ::id 3"]
     ++ dangling_tokens)
  = Return ([("id", "3"); ("date", "2020")], dangling_tokens).
Proof.
  refine (proj2 (parse_comments_metadata (inl ErrorEndOfInput) 4
    (map comment_token ["# ::id 1"; "# ::date 2020"; "# ::id 3"])
    id_date_id dangling_tokens _ _ _ _ _)).
  - reflexivity.
  - reflexivity.
  - reflexivity.
  - reflexivity.
  - cbn. lia.
Defined.

(** C5 fails as stated for a comment that holds several pairs: the comment
    [# ::id 1 ::date 2020] lists date before id, and in the comment
    [# ::id 1 ::id 3] the value of the earlier pair stays. *)
Lemma metadata_order_counterexample :
  (exists d : Dict,
      _parse_comments (inl ErrorEndOfInput) 2
        [comment_token "# ::id 1 ::date 2020"; punct_token "LPAREN" "("]
      = Return (d, [punct_token "LPAREN" "("])
      /\ dict_keys d = ["date"; "id"]
      /\ dict_keys d <> ["id"; "date"])
  /\ (exists d : Dict,
         _parse_comments (inl ErrorEndOfInput) 2
           [comment_token "# ::id 1 ::id 3"; punct_token "LPAREN" "("]
         = Return (d, [punct_token "LPAREN" "("])
         /\ dict_get d "id" = Some "1 "
         /\ dict_get d "id" <> Some "3").
Proof.
  split.
  - exists [("date", "2020"); ("id", "1 ")].
    split; [reflexivity|]. split; [reflexivity | discriminate].
  - exists [("id", "1 ")].
    split; [reflexivity|]. split; [reflexivity | discriminate].
Qed.

(** ** Where markers come from *)

Section MarkerOrigin.

Variable at_end : PenmanSyntaxError + Token.

Abbreviation decoded := (from_token at_end).

Lemma bind_Return {A B} (m : Parser A) (k : A -> Parser B)
    (ts rest : TokenIterator) (b : B) :
  bind m k ts = Return (b, rest) ->
  exists a ts', m ts = Return (a, ts') /\ k a ts' = Return (b, rest).
Proof.
  unfold bind. destruct (m ts) as [[a ts']|e|]; [|discriminate..].
  intros H. now exists a, ts'.
Qed.

Lemma ret_Return {A} (a b : A) (ts rest : TokenIterator) :
  ret a ts = Return (b, rest) -> b = a /\ rest = ts.
Proof. unfold ret. now intros [= -> ->]. Qed.

Lemma peek_Return (ts rest : TokenIterator) (t : Token) :
  peek at_end ts = Return (t, rest) -> rest = ts /\ current at_end ts = inr t.
Proof.
  unfold peek. destruct (current at_end ts); [discriminate|].
  now intros [= -> ->].
Qed.

Lemma next_Return (ts rest : TokenIterator) (t : Token) :
  next at_end ts = Return (t, rest) ->
  rest = tail ts /\ current at_end ts = inr t.
Proof.
  unfold next. destruct (current at_end ts); [discriminate|].
  now intros [= -> ->].
Qed.

Lemma expect_Return (choices : list string) (ts rest : TokenIterator)
    (t : Token) :
  expect at_end choices ts = Return (t, rest) ->
  rest = tail ts /\ current at_end ts = inr t /\ type_in t choices = true.
Proof.
  unfold expect. destruct (current at_end ts) as [|t']; [discriminate|].
  destruct (type_in t' choices) eqn:Hty; [|discriminate].
  now intros [= -> ->].
Qed.

Lemma current_elem (ts : TokenIterator) (t : Token) :
  current at_end ts = inr t -> t ∈ ts \/ at_end = inr t.
Proof.
  destruct ts as [|t' ts]; cbn.
  - now right.
  - intros [= ->]. left. apply list_elem_of_here.
Qed.

Lemma suffix_tail (ts : TokenIterator) : tail ts `suffix_of` ts.
Proof. destruct ts; [reflexivity|]. now apply suffix_cons_r. Qed.

Lemma decoded_suffix (ts ts' : TokenIterator) (m : AlignmentMarker) :
  ts' `suffix_of` ts -> decoded ts' m -> decoded ts m.
Proof.
  intros [k ->] (tok & c & Hin & Hty & Hm). exists tok, c.
  split; [|now split]. destruct Hin as [Hin | Hend]; [left | now right].
  apply elem_of_app. now right.
Qed.

Lemma Forall_decoded_suffix (ts ts' : TokenIterator)
    (ms : list AlignmentMarker) :
  ts' `suffix_of` ts -> Forall (decoded ts') ms -> Forall (decoded ts) ms.
Proof.
  intros Hs H. eapply Forall_impl; [exact H|].
  intros m. now apply decoded_suffix.
Qed.

Lemma parse_alignment_Return (c : MarkerClass) (ts rest : TokenIterator)
    (m : AlignmentMarker) :
  _parse_alignment at_end c ts = Return (m, rest) ->
  rest = tail ts /\ decoded ts m.
Proof.
  unfold _parse_alignment. intros H.
  apply bind_Return in H as (tok & ts' & Hexp & H).
  apply expect_Return in Hexp as (-> & Hcur & Hty).
  apply ret_Return in H as [-> ->]. split; [reflexivity|].
  exists tok, c. rewrite type_in_single in Hty.
  split; [now apply current_elem | now split].
Qed.

(** The step shared by the three places that read an optional alignment:
    the markers gathered so far, with at most one added. *)
Lemma optional_alignment_Return (c : MarkerClass) (t : Token)
    (epis out : list AlignmentMarker) (ts rest : TokenIterator) :
  (if is_type t "ALIGNMENT" then
     let* a := _parse_alignment at_end c in ret (epis ++ [a])
   else ret epis) ts = Return (out, rest) ->
  rest `suffix_of` ts
  /\ exists new, out = epis ++ new /\ Forall (decoded ts) new.
Proof.
  destruct (is_type t "ALIGNMENT"); intros H.
  - apply bind_Return in H as (a & ts' & Ha & H).
    apply parse_alignment_Return in Ha as [-> Ha].
    apply ret_Return in H as [-> ->]. split; [apply suffix_tail|].
    exists [a]. split; [reflexivity|]. now constructor.
  - apply ret_Return in H as [-> ->]. split; [reflexivity|].
    exists []. split; [now rewrite app_nil_r | constructor].
Qed.

Lemma node_markers_edges (id : option Constant) (edges : list Edge) :
  node_markers (mkNode id edges) = flat_map edge_markers edges.
Proof.
  cbn [node_markers]. induction edges as [|[r t e] edges IH];
    [reflexivity|].
  cbn [flat_map edge_markers]. rewrite IH. now rewrite <- app_assoc.
Qed.

Lemma parse_node_label_Return (ts rest : TokenIterator) (e : Edge) :
  _parse_node_label at_end ts = Return (e, rest) ->
  rest `suffix_of` ts /\ Forall (decoded ts) (edge_markers e).
Proof.
  unfold _parse_node_label. intros H.
  apply bind_Return in H as (s & ts1 & Hs & H).
  apply expect_Return in Hs as (-> & _ & _).
  apply bind_Return in H as (t & ts1 & Ht & H).
  apply peek_Return in Ht as [-> _].
  pose proof (suffix_tail ts) as Hts.
  destruct (type_in t ATOMS).
  - apply bind_Return in H as (l & ts2 & Hl & H).
    apply next_Return in Hl as [-> _].
    apply bind_Return in H as (t' & ts2 & Ht' & H).
    apply peek_Return in Ht' as [-> _].
    apply bind_Return in H as (epis & ts3 & Hepis & H).
    apply (optional_alignment_Return Alignment t' []) in Hepis
      as (Hs3 & new & -> & Hnew).
    apply ret_Return in H as [-> ->].
    pose proof (suffix_tail (tail ts)) as Hts'.
    split; [now rewrite Hs3, Hts'|].
    cbn [edge_markers app]. rewrite app_nil_r.
    eapply Forall_decoded_suffix; [|exact Hnew]. now rewrite Hts'.
  - apply ret_Return in H as [-> ->]. split; [exact Hts | constructor].
Qed.

(** What [_parse_node], its loop over the edges and [_parse_edge] return:
    the stream left is a suffix of the one given, shorter by at least one
    token for a node and for an edge, and the markers attached are decoded
    from alignment tokens of the stream. *)
Lemma parse_markers (fuel : nat) :
  (forall ts n rest,
      _parse_node at_end fuel ts = Return (n, rest) ->
      rest `suffix_of` tail ts /\ Forall (decoded ts) (node_markers n))
  /\ (forall ts acc es rest,
         _parse_edges at_end fuel acc ts = Return (es, rest) ->
         rest `suffix_of` ts
         /\ exists new,
              es = acc ++ new
              /\ Forall (decoded ts) (flat_map edge_markers new))
  /\ (forall ts e rest,
         _parse_edge at_end fuel ts = Return (e, rest) ->
         rest `suffix_of` tail ts /\ Forall (decoded ts) (edge_markers e)).
Proof.
  induction fuel as [|fuel (IHnode & IHedges & IHedge)];
    [repeat split; discriminate|].
  split; [|split].
  - (* _parse_node *)
    intros ts n rest H. cbn [_parse_node] in H.
    apply bind_Return in H as (lp & ts1 & Hlp & H).
    apply expect_Return in Hlp as (-> & _ & _).
    apply bind_Return in H as (t & ts1 & Ht & H).
    apply peek_Return in Ht as [-> _].
    apply bind_Return in H as ([id edges] & ts2 & Hbody & H).
    apply bind_Return in H as (rp & ts3 & Hrp & H).
    apply expect_Return in Hrp as (-> & _ & _).
    apply ret_Return in H as [-> ->].
    rewrite node_markers_edges.
    pose proof (suffix_tail ts) as Hts.
    pose proof (suffix_tail ts2) as Hts2.
    destruct (negb (is_type t "RPAREN")).
    + apply bind_Return in Hbody as (i & ts4 & Hi & Hbody).
      apply expect_Return in Hi as (-> & _ & _).
      apply bind_Return in Hbody as (t' & ts4 & Ht' & Hbody).
      apply peek_Return in Ht' as [-> _].
      apply bind_Return in Hbody as (edges0 & ts5 & Hlabel & Hbody).
      apply bind_Return in Hbody as (edges1 & ts6 & Hedges & Hbody).
      apply ret_Return in Hbody as [[= -> ->] ->].
      apply IHedges in Hedges as (Hs6 & new & -> & Hnew).
      pose proof (suffix_tail (tail ts)) as Hts'.
      assert (ts5 `suffix_of` tail (tail ts)
              /\ Forall (decoded (tail (tail ts)))
                   (flat_map edge_markers edges0)) as [Hs5 Hlab].
      { destruct (is_type t' "SLASH").
        - apply bind_Return in Hlabel as (l & ts7 & Hl & Hlabel).
          apply ret_Return in Hlabel as [-> ->].
          apply parse_node_label_Return in Hl as [Hl1 Hl2].
          split; [exact Hl1|]. cbn [flat_map]. now rewrite app_nil_r.
        - apply ret_Return in Hlabel as [-> ->].
          split; [reflexivity | constructor]. }
      split; [now rewrite Hts2, Hs6, Hs5, Hts'|].
      rewrite flat_map_app. apply Forall_app. split.
      * eapply Forall_decoded_suffix; [|exact Hlab]. now rewrite Hts'.
      * eapply Forall_decoded_suffix; [|exact Hnew].
        now rewrite Hs5, Hts'.
    + apply ret_Return in Hbody as [[= -> ->] ->].
      split; [exact Hts2 | constructor].
  - (* the loop over the edges *)
    intros ts acc es rest H. cbn [_parse_edges] in H.
    apply bind_Return in H as (t & ts1 & Ht & H).
    apply peek_Return in Ht as [-> _].
    destruct (negb (is_type t "RPAREN")).
    + apply bind_Return in H as (e & ts2 & He & H).
      apply IHedge in He as [Hs2 He].
      apply IHedges in H as (Hs & new & -> & Hnew).
      assert (ts2 `suffix_of` ts) as Hs2'
        by (rewrite Hs2; apply suffix_tail).
      split; [now rewrite Hs|]. exists (e :: new).
      split; [now rewrite <- app_assoc|].
      cbn [flat_map]. apply Forall_app. split; [exact He|].
      eapply Forall_decoded_suffix; [exact Hs2' | exact Hnew].
    + apply ret_Return in H as [-> ->]. split; [reflexivity|].
      exists []. split; [now rewrite app_nil_r | constructor].
  - (* _parse_edge *)
    intros ts e rest H. cbn [_parse_edge] in H.
    apply bind_Return in H as (r & ts1 & Hr & H).
    apply expect_Return in Hr as (-> & _ & _).
    apply bind_Return in H as (t & ts1 & Ht & H).
    apply peek_Return in Ht as [-> _].
    apply bind_Return in H as (epidata & ts2 & Hepi & H).
    apply (optional_alignment_Return RoleAlignment t []) in Hepi
      as (Hs2 & new & -> & Hnew).
    cbn [app] in H.
    apply bind_Return in H as (nxt & ts3 & Hnxt & H).
    apply peek_Return in Hnxt as [-> _].
    pose proof (suffix_tail ts) as Hts.
    assert (ts2 `suffix_of` ts) as Hts2 by now rewrite Hs2.
    pose proof (Forall_decoded_suffix _ _ _ Hts Hnew) as Hnew'.
    destruct (type_in nxt ATOMS).
    + apply bind_Return in H as (a & ts4 & Ha & H).
      apply next_Return in Ha as [-> _].
      apply bind_Return in H as (t' & ts4 & Ht' & H).
      apply peek_Return in Ht' as [-> _].
      apply bind_Return in H as (epidata' & ts5 & Hepi' & H).
      apply optional_alignment_Return in Hepi'
        as (Hs5 & new' & -> & Hnew'').
      apply ret_Return in H as [-> ->].
      pose proof (suffix_tail ts2) as Hts2'.
      split; [now rewrite Hs5, Hts2'|].
      cbn [edge_markers]. rewrite app_nil_r. apply Forall_app.
      split; [exact Hnew'|].
      eapply Forall_decoded_suffix; [|exact Hnew'']. now rewrite Hts2'.
    + destruct (is_type nxt "LPAREN").
      * apply bind_Return in H as (n & ts4 & Hn & H).
        apply IHnode in Hn as [Hs4 Hn].
        apply ret_Return in H as [-> ->].
        split; [now rewrite Hs4, (suffix_tail ts2)|].
        cbn [edge_markers]. apply Forall_app. split; [exact Hnew'|].
        eapply Forall_decoded_suffix; [exact Hts2 | exact Hn].
      * destruct (negb (type_in nxt ["ROLE"; "RPAREN"]));
          [discriminate|].
        apply ret_Return in H as [-> ->]. split; [exact Hs2|].
        cbn [edge_markers]. now rewrite app_nil_r.
Qed.

End MarkerOrigin.

Section AttachedMarkers.

Variable at_end : PenmanSyntaxError + Token.

Lemma split_comma_nonempty (s : string) : Str.split_comma s <> [].
Proof.
  induction s as [|c s IH]; cbn [Str.split_comma]; [discriminate|].
  destruct (Ascii.eqb c ","); [discriminate|].
  destruct (Str.split_comma s); discriminate.
Qed.


Lemma parse_comments_loop_suffix (fuel : nat) :
  forall (md d : Dict) (ts rest : TokenIterator),
    _parse_comments_loop at_end fuel md ts = Return (d, rest) ->
    rest `suffix_of` ts.
Proof.
  induction fuel as [|fuel IH]; intros md d ts rest H; [discriminate|].
  cbn [_parse_comments_loop] in H.
  apply bind_Return in H as (t & ts1 & Ht & H).
  apply peek_Return in Ht as [-> _].
  destruct (is_type t "COMMENT").
  - apply bind_Return in H as (c & ts2 & Hc & H).
    apply next_Return in Hc as [-> _]. apply IH in H.
    rewrite H. apply suffix_tail.
  - now apply ret_Return in H as [-> ->].
Qed.


End AttachedMarkers.



(** ** The iteration bounds suffice *)

Section Termination.

Variable at_end : PenmanSyntaxError + Token.
Hypothesis end_final : end_is_final at_end = true.

Lemma answers_bind {A B} (m : Parser A) (k : A -> Parser B)
    (ts : TokenIterator) :
  answers (m ts) ->
  (forall a ts', m ts = Return (a, ts') -> answers (k a ts')) ->
  answers (bind m k ts).
Proof.
  unfold answers, bind. intros Hm Hk.
  destruct (m ts) as [[a ts']|e|]; [now apply Hk | discriminate | congruence].
Qed.

Lemma answers_peek (ts : TokenIterator) : answers (peek at_end ts).
Proof. unfold answers, peek. now destruct (current at_end ts). Qed.

Lemma answers_next (ts : TokenIterator) : answers (next at_end ts).
Proof. unfold answers, next. now destruct (current at_end ts). Qed.

Lemma answers_expect (choices : list string) (ts : TokenIterator) :
  answers (expect at_end choices ts).
Proof.
  unfold answers, expect. destruct (current at_end ts) as [|t]; [easy|].
  now destruct (type_in t choices).
Qed.

Lemma answers_ret {A} (a : A) (ts : TokenIterator) : answers (ret a ts).
Proof. discriminate. Qed.

Lemma answers_parse_alignment (c : MarkerClass) (ts : TokenIterator) :
  answers (_parse_alignment at_end c ts).
Proof.
  unfold _parse_alignment. apply answers_bind; [apply answers_expect|].
  intros; apply answers_ret.
Qed.

Lemma answers_optional_alignment (c : MarkerClass) (t : Token)
    (epis : list AlignmentMarker) (ts : TokenIterator) :
  answers ((if is_type t "ALIGNMENT" then
              let* a := _parse_alignment at_end c in ret (epis ++ [a])
            else ret epis) ts).
Proof.
  destruct (is_type t "ALIGNMENT"); [|apply answers_ret].
  apply answers_bind; [apply answers_parse_alignment|].
  intros; apply answers_ret.
Qed.

Lemma answers_parse_node_label (ts : TokenIterator) :
  answers (_parse_node_label at_end ts).
Proof.
  unfold _parse_node_label.
  apply answers_bind; [apply answers_expect|]. intros s ts1 _.
  apply answers_bind; [apply answers_peek|]. intros t ts2 _.
  destruct (type_in t ATOMS); [|apply answers_ret].
  apply answers_bind; [apply answers_next|]. intros l ts3 _.
  apply answers_bind; [apply answers_peek|]. intros t' ts4 _.
  apply answers_bind;
    [apply (answers_optional_alignment Alignment t' [])|].
  intros; apply answers_ret.
Qed.

(** At the end of the input no role can be read and no comment. *)
Lemma current_nil_not_role (t : Token) :
  current at_end [] = inr t -> type_in t ["ROLE"] = false.
Proof.
  intros H. cbn [current] in H. pose proof end_final as Hf.
  rewrite H in Hf. cbn [end_is_final] in Hf. rewrite type_in_single.
  apply andb_true_iff in Hf as [Hf _]. now apply negb_true_iff.
Qed.

Lemma current_nil_not_comment (t : Token) :
  current at_end [] = inr t -> is_type t "COMMENT" = false.
Proof.
  intros H. cbn [current] in H. pose proof end_final as Hf.
  rewrite H in Hf. cbn [end_is_final] in Hf.
  apply andb_true_iff in Hf as [_ Hf]. now apply negb_true_iff.
Qed.

Lemma suffix_tail_length (ts rest : TokenIterator) (t : Token) :
  rest `suffix_of` tail (t :: ts) -> (length rest <= length ts)%nat.
Proof. cbn. apply suffix_length. Qed.

Lemma parse_answers (fuel : nat) :
  (forall ts, (2 * length ts + 1 <= fuel)%nat ->
              answers (_parse_node at_end fuel ts))
  /\ (forall ts acc, (2 * length ts + 2 <= fuel)%nat ->
                     answers (_parse_edges at_end fuel acc ts))
  /\ (forall ts, (2 * length ts + 1 <= fuel)%nat ->
                 answers (_parse_edge at_end fuel ts)).
Proof.
  induction fuel as [|fuel (IHnode & IHedges & IHedge)];
    [repeat split; intros; lia|].
  split; [|split].
  - (* _parse_node *)
    intros ts Hfuel. cbn [_parse_node].
    apply answers_bind; [apply answers_expect|]. intros lp ts1 Hlp.
    apply expect_Return in Hlp as (-> & Hcur & Hlp).
    apply answers_bind; [apply answers_peek|]. intros t ts1 Ht.
    apply peek_Return in Ht as [-> _].
    apply answers_bind.
    + destruct (negb (is_type t "RPAREN")); [|apply answers_ret].
      apply answers_bind; [apply answers_expect|]. intros i ts2 Hi.
      apply expect_Return in Hi as (-> & Hcur' & Hi).
      apply answers_bind; [apply answers_peek|]. intros t' ts2 Ht'.
      apply peek_Return in Ht' as [-> _].
      apply answers_bind.
      { destruct (is_type t' "SLASH"); [|apply answers_ret].
        apply answers_bind; [apply answers_parse_node_label|].
        intros; apply answers_ret. }
      intros edges0 ts3 Hlabel.
      apply answers_bind; [|intros; apply answers_ret].
      apply IHedges.
      assert (ts3 `suffix_of` tail (tail ts)) as Hs3.
      { destruct (is_type t' "SLASH").
        - apply bind_Return in Hlabel as (l & ts4 & Hl & Hlabel).
          apply ret_Return in Hlabel as [_ ->].
          now apply parse_node_label_Return in Hl as [Hl _].
        - now apply ret_Return in Hlabel as [_ ->]. }
      destruct ts as [|t0 ts].
      * (* nothing is both an opening parenthesis and a symbol *)
        cbn in Hcur, Hcur'. rewrite Hcur in Hcur'.
        injection Hcur' as <-. rewrite type_in_single in Hlp.
        apply is_type_eq in Hlp. unfold IDENTIFIERS, type_in in Hi.
        rewrite Hlp in Hi. discriminate.
      * pose proof (suffix_length _ _ Hs3) as Hlen.
        pose proof (suffix_length _ _ (suffix_tail (tail (t0 :: ts)))).
        cbn [tail length] in *. lia.
    + intros [id edges] ts2 _.
      apply answers_bind; [apply answers_expect|].
      intros; apply answers_ret.
  - (* the loop over the edges *)
    intros ts acc Hfuel. cbn [_parse_edges].
    apply answers_bind; [apply answers_peek|]. intros t ts1 Ht.
    apply peek_Return in Ht as [-> _].
    destruct (negb (is_type t "RPAREN")); [|apply answers_ret].
    apply answers_bind; [apply IHedge; lia|]. intros e ts2 He.
    apply IHedges. destruct fuel as [|fuel]; [discriminate|].
    pose proof He as He'. apply (parse_markers at_end) in He' as [Hs2 _].
    destruct ts as [|t0 ts].
    + cbn [_parse_edge] in He.
      apply bind_Return in He as (r & ts3 & Hr & _).
      apply expect_Return in Hr as (_ & Hcur & Hr).
      now rewrite (current_nil_not_role r Hcur) in Hr.
    + apply suffix_tail_length in Hs2. cbn [length] in Hfuel. lia.
  - (* _parse_edge *)
    intros ts Hfuel. cbn [_parse_edge].
    apply answers_bind; [apply answers_expect|]. intros r ts1 Hr.
    apply expect_Return in Hr as (-> & Hcur & Hr).
    apply answers_bind; [apply answers_peek|]. intros t ts1 Ht.
    apply peek_Return in Ht as [-> _].
    apply answers_bind;
      [apply (answers_optional_alignment RoleAlignment t [])|].
    intros epidata ts2 Hepi.
    apply (optional_alignment_Return at_end RoleAlignment t []) in Hepi
      as [Hs2 _].
    apply answers_bind; [apply answers_peek|]. intros nxt ts3 Hnxt.
    apply peek_Return in Hnxt as [-> _].
    destruct (type_in nxt ATOMS).
    + apply answers_bind; [apply answers_next|]. intros a ts4 _.
      apply answers_bind; [apply answers_peek|]. intros t' ts5 _.
      apply answers_bind; [apply answers_optional_alignment|].
      intros; apply answers_ret.
    + destruct (is_type nxt "LPAREN").
      * apply answers_bind; [|intros; apply answers_ret].
        apply IHnode. destruct ts as [|t0 ts].
        -- now rewrite (current_nil_not_role r Hcur) in Hr.
        -- apply suffix_tail_length in Hs2. cbn [length] in Hfuel. lia.
      * destruct (negb (type_in nxt ["ROLE"; "RPAREN"]));
          [discriminate | apply answers_ret].
Qed.

Lemma parse_comments_answers (fuel : nat) :
  forall (ts : TokenIterator) (md : Dict),
    (length ts + 1 <= fuel)%nat ->
    answers (_parse_comments_loop at_end fuel md ts).
Proof.
  induction fuel as [|fuel IH]; intros ts md Hfuel; [lia|].
  cbn [_parse_comments_loop].
  apply answers_bind; [apply answers_peek|]. intros t ts1 Ht.
  apply peek_Return in Ht as [-> Hcur].
  destruct (is_type t "COMMENT") eqn:Hc; [|apply answers_ret].
  apply answers_bind; [apply answers_next|]. intros c ts2 Hn.
  apply next_Return in Hn as [-> _].
  destruct ts as [|t0 ts].
  - now rewrite (current_nil_not_comment t Hcur) in Hc.
  - apply IH. cbn [tail length] in *. lia.
Qed.

(** [parse] gives a tree or raises: the bound [fuel_for] on its loops is
    never reached. *)
Lemma parse_answers_always (tokens : TokenIterator) :
  answers (parse at_end tokens).
Proof.
  unfold parse.
  apply answers_bind; [apply parse_comments_answers; unfold fuel_for; lia|].
  intros md ts1 Hmd. apply parse_comments_loop_suffix in Hmd.
  apply suffix_length in Hmd.
  apply answers_bind; [|intros; apply answers_ret].
  apply parse_answers. unfold fuel_for. lia.
Qed.

End Termination.

Section TriplesTermination.

Variable at_end : PenmanSyntaxError + Token.

(** [parse_triples] gives triples or raises: every turn of its loop reads
    at least one token, and fails at the end of the input. *)
Lemma parse_triples_loop_answers (fuel : nat) :
  forall (ts : TokenIterator) (target : option Constant)
         (triples : list Triple),
    (length ts + 1 <= fuel)%nat ->
    answers (_parse_triples_loop at_end fuel target triples ts).
Proof.
  induction fuel as [|fuel IH]; intros ts target triples Hfuel; [lia|].
  cbn [_parse_triples_loop].
  apply answers_bind; [apply answers_expect|]. intros r ts1 Hr.
  apply expect_Return in Hr as (-> & Hcur & Hr).
  apply answers_bind; [apply answers_expect|]. intros lp ts1 Hlp.
  apply expect_Return in Hlp as (-> & Hcur' & Hlp).
  apply answers_bind; [apply answers_expect|]. intros s ts1 Hs.
  apply expect_Return in Hs as (-> & _ & _).
  apply answers_bind; [apply answers_expect|]. intros co ts2 Hco.
  apply expect_Return in Hco as (-> & _ & _).
  apply answers_bind; [apply answers_peek|]. intros nxt ts2 Hnxt.
  apply peek_Return in Hnxt as [-> _].
  apply answers_bind.
  { destruct (type_in nxt ATOMS).
    - apply answers_bind; [apply answers_next|].
      intros; apply answers_ret.
    - destruct (is_type nxt "RPAREN"); apply answers_ret. }
  intros target' ts3 Htarget.
  apply answers_bind; [apply answers_expect|]. intros rp ts4 Hrp.
  apply expect_Return in Hrp as (-> & _ & _).
  apply answers_bind; [apply answers_peek|]. intros t ts4 Ht.
  apply peek_Return in Ht as [-> _].
  destruct (is_type t "CARET"); [|apply answers_ret].
  apply answers_bind; [apply answers_next|]. intros c ts5 Hc.
  apply next_Return in Hc as [-> _].
  apply IH. destruct ts as [|t0 ts].
  - (* nothing is both a symbol and an opening parenthesis *)
    cbn in Hcur, Hcur'. rewrite Hcur in Hcur'. injection Hcur' as <-.
    rewrite type_in_single in Hr, Hlp. apply is_type_eq in Hr.
    unfold is_type in Hlp. rewrite Hr in Hlp. discriminate.
  - assert (ts3 `suffix_of` tail (tail (tail (tail (t0 :: ts))))) as Hs3.
    { destruct (type_in nxt ATOMS).
      - apply bind_Return in Htarget as (a & ts6 & Ha & Htarget).
        apply next_Return in Ha as [-> _].
        apply ret_Return in Htarget as [_ ->]. apply suffix_tail.
      - destruct (is_type nxt "RPAREN");
          now apply ret_Return in Htarget as [_ ->]. }
    cbn [tail] in Hs3.
    pose proof (suffix_length _ _ (suffix_tail (tail ts3))) as H1.
    pose proof (suffix_length _ _ (suffix_tail ts3)) as H2.
    pose proof (suffix_length _ _ Hs3) as H3.
    pose proof (suffix_length _ _ (suffix_tail (tail (tail ts)))) as H4.
    pose proof (suffix_length _ _ (suffix_tail (tail ts))) as H5.
    pose proof (suffix_length _ _ (suffix_tail ts)) as H6.
    cbn [length] in Hfuel. lia.
Qed.

(** [parse_triples] returns triples or raises on every stream, whatever
    the stream does at its end: the bound [fuel_for] on its loop is never
    reached. *)
Lemma parse_triples_answers (tokens : TokenIterator) :
  answers (parse_triples at_end tokens).
Proof.
  unfold parse_triples. apply parse_triples_loop_answers.
  unfold fuel_for. lia.
Qed.

End TriplesTermination.

(** ** The columns kept are the columns of the text *)

Section TrackedColumns.

Variable str_marker : AlignmentMarker -> string.
Variable none_is_atomic : bool.

Lemma cursor_after_app (c : Z) (a b : string) :
  cursor_after c (a +:+ b) = cursor_after (cursor_after c a) b.
Proof.
  revert c. induction a as [|x a IH]; intros c; [reflexivity|].
  rewrite append_cons. cbn [cursor_after].
  destruct (Ascii.eqb x "010"); apply IH.
Qed.

Lemma cursor_after_line (c : Z) (s : string) :
  Str.contains s LF = false -> cursor_after c s = (c + Str.len s)%Z.
Proof.
  revert c. induction s as [|x s IH]; intros c H.
  - unfold Str.len. cbn. lia.
  - cbn [Str.contains Str.startswith LF] in H.
    apply orb_false_iff in H as [Hx H]. rewrite andb_true_r in Hx.
    cbn [cursor_after]. rewrite Ascii.eqb_sym, Hx, (IH _ H).
    unfold Str.len. cbn [String.length]. lia.
Qed.

Lemma cursor_after_spaces (c : Z) (n : nat) :
  cursor_after c (Str.repeat_nat " " n) = (c + Z.of_nat n)%Z.
Proof.
  revert c. induction n as [|n IH]; intros c; cbn [Str.repeat_nat].
  - cbn. lia.
  - cbn [cursor_after]. change (Ascii.eqb " " "010") with false.
    cbn iota. rewrite IH. lia.
Qed.

(** The columns that [_format_node] and [_format_edge] keep under
    [indent=-1] are the columns at which the text stands: after the opening
    of a node and after its joiner the text goes on at the column of the
    edges, and after the role of an edge, its epigraphs and the space, at
    the column given to a nested node. *)
Lemma tracked_columns (id : option Constant) (role : string)
    (epidata : list AlignmentMarker) (column c c0 : Z) :
  (0 <= column)%Z ->
  Str.contains (str_opt id) LF = false ->
  Str.contains (format_role role) LF = false ->
  Str.contains (epi_text str_marker 1 epidata) LF = false ->
  let auto := Some (-1)%Z in
  cursor_after column ("(" +:+ str_opt id +:+ " ")
  = edges_column auto column id
  /\ cursor_after c0 (edges_joiner auto column id)
     = edges_column auto column id
  /\ cursor_after c
       (format_role role +:+ epi_text str_marker 1 epidata +:+ " ")
     = (c + (Str.len (format_role role)
             + Str.len (epi_text str_marker 1 epidata) + 1))%Z.
Proof.
  intros Hcol Hid Hrole Hepi auto. unfold auto, edges_joiner, edges_column.
  cbn [Z.eqb Pos.eqb Z.opp]. repeat split.
  - rewrite 2!cursor_after_app, (cursor_after_line _ _ Hid). cbn. lia.
  - rewrite cursor_after_app. unfold Str.repeat.
    rewrite cursor_after_spaces. cbn [LF cursor_after].
    change (Ascii.eqb "010" "010") with true. cbn iota.
    pose proof (Zle_0_nat (String.length (str_opt id))).
    unfold Str.len in *. lia.
  - rewrite 2!cursor_after_app, (cursor_after_line _ _ Hrole),
      (cursor_after_line _ _ Hepi). cbn. lia.
Qed.

(** Under [indent=-1] the column [_format_node] and [_format_edge] are
    given is the column at which their text starts, and they hand on the
    column at which the text they call for starts.  A node with an
    identifier and edges, written from [column], formats its edges with
    the column the text has reached after the opening [(id ], and its
    joiner brings the text back to that column from wherever a part ends;
    an edge whose target is a node, written from [c], formats that node
    with the column the text has reached after the role, the role
    epigraphs and the space. *)
Theorem auto_indent_follows_cursor :
  forall (id : option Constant) (edges : list Edge) (column : Z)
         (ids : gset Constant) (role : string) (n : Node)
         (epidata : list AlignmentMarker) (c c0 : Z),
    truthy_opt id = true ->
    edges <> [] ->
    (0 <= column)%Z ->
    Str.contains (str_opt id) LF = false ->
    Str.contains (format_role role) LF = false ->
    Str.contains (epi_text str_marker 1 epidata) LF = false ->
    let auto := Some (-1)%Z in
    let opening := "(" +:+ str_opt id +:+ " " in
    let k := cursor_after column opening in
    let joiner := LF +:+ Str.repeat " " k in
    let f := fun e => _format_edge str_marker none_is_atomic e auto k ids in
    let lead := format_role role +:+ epi_text str_marker 1 epidata +:+ " " in
    (_format_node str_marker none_is_atomic (mkNode id edges) auto column ids
     = "(" +:+ str_opt id +:+ " "
         +:+ Str.join joiner
               (if bool_decide (ids = ∅) then map f edges
                else one_line
                       (map f (leading_run (compactable none_is_atomic ids)
                                 edges))
                     ++ map f (after_run (compactable none_is_atomic ids)
                                 edges))
         +:+ ")"
     /\ cursor_after c0 joiner = k)
    /\ _format_edge str_marker none_is_atomic (mkEdge role (TNode n) epidata)
         auto c ids
       = format_role role +:+ epi_text str_marker 1 epidata +:+ " "
           +:+ _format_node str_marker none_is_atomic n auto
                 (cursor_after c lead) ids
           +:+ epi_text str_marker 2 epidata.
Proof.
  intros id edges column ids role n epidata c c0 Hid Hedges Hcol Hidl Hrole
    Hepi auto opening k joiner f lead.
  pose proof (tracked_columns id role epidata column c c0 Hcol Hidl Hrole
                Hepi) as (Hk & Hj & Hl).
  cbn zeta in Hk, Hj, Hl. fold opening in Hk. fold k in Hk.
  fold lead in Hl. split; [split|].
  - rewrite (format_node_layout str_marker none_is_atomic id edges auto
               column ids Hid Hedges).
    change (edges_joiner auto column id)
      with (LF +:+ Str.repeat " " (edges_column (Some (-1)%Z) column id)).
    change (edges_column auto column id)
      with (edges_column (Some (-1)%Z) column id).
    rewrite <- Hk. reflexivity.
  - unfold joiner. rewrite Hk at 2. rewrite <- Hj. now rewrite Hk.
  - rewrite Hl. reflexivity.
Qed.

End TrackedColumns.

(** ** The shape of parsed trees *)

Section ParsedShape.

Variable at_end : PenmanSyntaxError + Token.

Lemma subnodes_edges (id : option Constant) (edges : list Edge) :
  subnodes (mkNode id edges)
  = mkNode id edges :: flat_map edge_subnodes edges.
Proof.
  cbn [subnodes]. f_equal.
  induction edges as [|[r t e] edges IH]; [reflexivity|].
  cbn [flat_map]. unfold edge_subnodes at 1. cbn [edge_target].
  destruct t; cbn [app]; now rewrite IH.
Qed.

Lemma optional_alignment_class (c : MarkerClass) (t : Token)
    (epis out : list AlignmentMarker) (ts rest : TokenIterator) :
  (if is_type t "ALIGNMENT" then
     let* a := _parse_alignment at_end c in ret (epis ++ [a])
   else ret epis) ts = Return (out, rest) ->
  out = epis \/ exists a, out = epis ++ [a] /\ cls a = c.
Proof.
  destruct (is_type t "ALIGNMENT"); intros H.
  - apply bind_Return in H as (a & ts' & Ha & H).
    apply ret_Return in H as [-> ->]. right. exists a. split; [reflexivity|].
    unfold _parse_alignment in Ha.
    apply bind_Return in Ha as (tok & ts1 & _ & Ha).
    apply ret_Return in Ha as [-> _]. unfold decode_alignment.
    now destruct (AlignmentRe.groups (text tok)) as [[p ix]|].
  - apply ret_Return in H as [-> ->]. now left.
Qed.

Lemma parse_node_label_shape (ts rest : TokenIterator) (e : Edge) :
  _parse_node_label at_end ts = Return (e, rest) -> edge_in_shape e.
Proof.
  unfold _parse_node_label. intros H.
  apply bind_Return in H as (s & ts1 & _ & H).
  apply bind_Return in H as (t & ts2 & _ & H).
  destruct (type_in t ATOMS).
  - apply bind_Return in H as (l & ts3 & _ & H).
    apply bind_Return in H as (t' & ts4 & _ & H).
    apply bind_Return in H as (epis & ts5 & Hepis & H).
    apply ret_Return in H as [-> ->].
    apply (optional_alignment_class Alignment t' []) in Hepis
      as [-> | (a & -> & Ha)].
    + split; [reflexivity | constructor].
    + split; [|constructor]. unfold epigraph_in_order.
      cbn [edge_epidata edge_target app map]. now rewrite Ha.
  - apply ret_Return in H as [-> ->]. split; [reflexivity | constructor].
Qed.

Lemma parse_shape (fuel : nat) :
  (forall ts n rest,
      _parse_node at_end fuel ts = Return (n, rest) ->
      Forall node_in_shape (subnodes n))
  /\ (forall ts acc es rest,
         _parse_edges at_end fuel acc ts = Return (es, rest) ->
         exists new, es = acc ++ new /\ Forall edge_in_shape new)
  /\ (forall ts e rest,
         _parse_edge at_end fuel ts = Return (e, rest) -> edge_in_shape e).
Proof.
  induction fuel as [|fuel (IHnode & IHedges & IHedge)];
    [repeat split; discriminate|].
  split; [|split].
  - intros ts n rest H. cbn [_parse_node] in H.
    apply bind_Return in H as (lp & ts1 & _ & H).
    apply bind_Return in H as (t & ts2 & _ & H).
    apply bind_Return in H as ([id edges] & ts3 & Hbody & H).
    apply bind_Return in H as (rp & ts4 & _ & H).
    apply ret_Return in H as [-> ->]. rewrite subnodes_edges.
    destruct (negb (is_type t "RPAREN")).
    + apply bind_Return in Hbody as (i & ts5 & _ & Hbody).
      apply bind_Return in Hbody as (t' & ts6 & _ & Hbody).
      apply bind_Return in Hbody as (edges0 & ts7 & Hlabel & Hbody).
      apply bind_Return in Hbody as (edges1 & ts8 & Hedges & Hbody).
      apply ret_Return in Hbody as [[= -> ->] ->].
      apply IHedges in Hedges as (new & -> & Hnew).
      assert (Forall edge_in_shape edges0) as Hlab.
      { destruct (is_type t' "SLASH").
        - apply bind_Return in Hlabel as (l & ts9 & Hl & Hlabel).
          apply ret_Return in Hlabel as [-> ->].
          apply parse_node_label_shape in Hl.
          constructor; [exact Hl | constructor].
        - apply ret_Return in Hlabel as [-> ->]. constructor. }
      assert (Forall edge_in_shape (edges0 ++ new)) as Hall
        by (apply Forall_app; now split).
      constructor.
      * split; [reflexivity|].
        eapply Forall_impl; [exact Hall|]. now intros e [He _].
      * apply Forall_flat_map. eapply Forall_impl; [exact Hall|].
        now intros e [_ He].
    + apply ret_Return in Hbody as [[= -> ->] ->].
      repeat constructor.
  - intros ts acc es rest H. cbn [_parse_edges] in H.
    apply bind_Return in H as (t & ts1 & _ & H).
    destruct (negb (is_type t "RPAREN")).
    + apply bind_Return in H as (e & ts2 & He & H).
      apply IHedge in He. apply IHedges in H as (new & -> & Hnew).
      exists (e :: new). split; [now rewrite <- app_assoc|].
      now constructor.
    + apply ret_Return in H as [-> ->]. exists [].
      split; [now rewrite app_nil_r | constructor].
  - intros ts e rest H. cbn [_parse_edge] in H.
    apply bind_Return in H as (r & ts1 & _ & H).
    apply bind_Return in H as (t & ts2 & _ & H).
    apply bind_Return in H as (epidata & ts3 & Hepi & H).
    apply (optional_alignment_class RoleAlignment t []) in Hepi.
    apply bind_Return in H as (nxt & ts4 & _ & H).
    destruct (type_in nxt ATOMS).
    + apply bind_Return in H as (a & ts5 & _ & H).
      apply bind_Return in H as (t' & ts6 & _ & H).
      apply bind_Return in H as (epidata' & ts7 & Hepi' & H).
      apply optional_alignment_class in Hepi'.
      apply ret_Return in H as [-> ->].
      split; [|constructor]. unfold epigraph_in_order.
      cbn [edge_epidata edge_target].
      destruct Hepi as [-> | (m & -> & Hm)],
        Hepi' as [-> | (m' & -> & Hm')]; cbn [app map];
        rewrite ?Hm, ?Hm'; reflexivity.
    + destruct (is_type nxt "LPAREN").
      * apply bind_Return in H as (n & ts5 & Hn & H).
        apply IHnode in Hn. apply ret_Return in H as [-> ->].
        split; [|exact Hn]. unfold epigraph_in_order.
        cbn [edge_epidata edge_target].
        destruct Hepi as [-> | (m & -> & Hm)]; cbn [app map];
          rewrite ?Hm; reflexivity.
      * destruct (negb (type_in nxt ["ROLE"; "RPAREN"]));
          [discriminate|].
        apply ret_Return in H as [-> ->].
        split; [|constructor]. unfold epigraph_in_order.
        cbn [edge_epidata edge_target].
        destruct Hepi as [-> | (m & -> & Hm)]; cbn [app map];
          rewrite ?Hm; reflexivity.
Qed.

Lemma parse_tree_shape (tokens rest : TokenIterator) (tree : Tree) :
  parse at_end tokens = Return (tree, rest) ->
  Forall node_in_shape (subnodes (node tree)).
Proof.
  unfold parse. intros H.
  apply bind_Return in H as (md & ts1 & _ & H).
  apply bind_Return in H as (n & ts2 & Hn & H).
  apply ret_Return in H as [-> ->]. now apply parse_shape in Hn.
Qed.

(** In a tree that [parse] returns, a node without identifier has no
    edges: the only such node is the empty node [()]. *)
Theorem parsed_edges_need_id :
  forall (tokens rest : TokenIterator) (tree : Tree) (n : Node),
    parse at_end tokens = Return (tree, rest) ->
    n ∈ subnodes (node tree) ->
    node_id n = None -> node_edges n = [].
Proof.
  intros tokens rest tree n H Hn Hid. apply parse_tree_shape in H.
  rewrite Forall_forall in H. destruct (H n Hn) as [Hshape _].
  unfold edges_need_id in Hshape. rewrite Hid in Hshape.
  now destruct (node_edges n).
Qed.

(** In a tree that [parse] returns, the epigraph of every edge is at most
    one role alignment followed by at most one target alignment, and a
    target alignment is there only when the target is an atom. *)
Theorem parsed_epigraph_in_order :
  forall (tokens rest : TokenIterator) (tree : Tree) (n : Node) (e : Edge),
    parse at_end tokens = Return (tree, rest) ->
    n ∈ subnodes (node tree) ->
    e ∈ node_edges n ->
    epigraph_in_order e = true.
Proof.
  intros tokens rest tree n e H Hn He. apply parse_tree_shape in H.
  rewrite Forall_forall in H. destruct (H n Hn) as [_ Hedges].
  rewrite Forall_forall in Hedges. now apply Hedges.
Qed.

End ParsedShape.

Lemma parsed_edges_need_id_witness :
  node_edges (mkNode None []) = [].
Proof.
  apply (parsed_edges_need_id (inl ErrorEndOfInput)
           [punct_token "LPAREN" "("; punct_token "RPAREN" ")"] []
           (mkTree (mkNode None []) []) (mkNode None [])).
  - reflexivity.
  - cbn. apply list_elem_of_here.
  - reflexivity.
Defined.

Lemma parsed_epigraph_in_order_witness :
  epigraph_in_order
    (mkEdge ":ARG1" (TAtom (CStr "c")) [mkMarker Alignment [3%Z] (Some "e.")])
  = true.
Proof.
  apply (parsed_epigraph_in_order (inl ErrorEndOfInput) aligned_tokens []
           aligned_tree (node aligned_tree)).
  - reflexivity.
  - cbn. apply list_elem_of_here.
  - cbn. do 2 apply list_elem_of_further. apply list_elem_of_here.
Defined.

(** ** Conjunctions of triples *)

Section TripleConjunctions.

Variable at_end : PenmanSyntaxError + Token.

Lemma atom_token_type (c : Constant) : type_in (atom_token c) ATOMS = true.
Proof. now destruct c. Qed.

(** One turn of the loop of [parse_triples] over the tokens of a triple. *)
Lemma parse_triples_turn (fuel : nat) (t : Triple) (target : option Constant)
    (acc : list Triple) (rest : TokenIterator) :
  _parse_triples_loop at_end (S fuel) target acc (triple_tokens t ++ rest)
  = (let* p := peek at_end in
     if is_type p "CARET" then
       let* _ := next at_end in
       _parse_triples_loop at_end fuel (snd t) (acc ++ [t])
     else ret (acc ++ [t])) rest.
Proof.
  destruct t as [[source role] [c|]]; cbn [triple_tokens app snd].
  - cbn [_parse_triples_loop]. unfold bind at 1.
    rewrite expect_cons by reflexivity.
    unfold bind at 1. rewrite expect_cons by reflexivity.
    unfold bind at 1. rewrite expect_cons by reflexivity.
    unfold bind at 1. rewrite expect_cons by reflexivity.
    unfold bind at 1. rewrite peek_cons. rewrite atom_token_type.
    unfold bind at 1. unfold bind at 1. rewrite next_cons. cbn [ret].
    unfold bind at 1. rewrite expect_cons by reflexivity.
    reflexivity.
  - cbn [_parse_triples_loop]. unfold bind at 1.
    rewrite expect_cons by reflexivity.
    unfold bind at 1. rewrite expect_cons by reflexivity.
    unfold bind at 1. rewrite expect_cons by reflexivity.
    unfold bind at 1. rewrite expect_cons by reflexivity.
    unfold bind at 1. rewrite peek_cons.
    change (type_in (punct_token "RPAREN" ")") ATOMS) with false.
    change (is_type (punct_token "RPAREN" ")") "RPAREN") with true.
    cbn iota. unfold bind at 1. cbn [ret].
    unfold bind at 1. rewrite expect_cons by reflexivity.
    reflexivity.
Qed.

Lemma parse_triples_loop_conjunction (triples : list Triple) :
  forall (fuel : nat) (target : option Constant) (acc : list Triple)
         (rest : TokenIterator),
    triples <> [] ->
    not_caret_next at_end rest = true ->
    (length triples <= fuel)%nat ->
    _parse_triples_loop at_end fuel target acc (conjunction triples ++ rest)
    = Return (acc ++ triples, rest).
Proof.
  induction triples as [|t triples IH];
    intros fuel target acc rest Hne Hrest Hfuel; [congruence|].
  destruct fuel as [|fuel]; [cbn in Hfuel; lia|].
  destruct triples as [|t' triples].
  - cbn [conjunction]. rewrite parse_triples_turn.
    unfold not_caret_next in Hrest. unfold bind, peek.
    destruct (current at_end rest) as [e|p]; [discriminate|].
    apply negb_true_iff in Hrest. now rewrite Hrest.
  - change (conjunction (t :: t' :: triples))
      with (triple_tokens t
            ++ punct_token "CARET" "^" :: conjunction (t' :: triples)).
    rewrite <- app_assoc, parse_triples_turn. cbn [app].
    unfold bind at 1. rewrite peek_cons.
    change (is_type (punct_token "CARET" "^") "CARET") with true.
    cbn iota. unfold bind at 1. rewrite next_cons.
    rewrite IH; [|discriminate|exact Hrest|cbn [length] in *; lia].
    now rewrite <- app_assoc.
Qed.

Lemma conjunction_length (triples : list Triple) :
  (length triples <= length (conjunction triples))%nat.
Proof.
  induction triples as [|t triples IH]; [cbn; lia|].
  assert (1 <= length (triple_tokens t))%nat as Ht.
  { destruct t as [[s r] [c|]]; cbn; lia. }
  destruct triples as [|t' triples].
  - cbn [conjunction length]. lia.
  - change (conjunction (t :: t' :: triples))
      with (triple_tokens t
            ++ punct_token "CARET" "^" :: conjunction (t' :: triples)).
    rewrite length_app. cbn [length] in *. lia.
Qed.

(** [parse_triples] reads back every conjunction of triples: from the
    tokens of one or more triples joined by carets, a triple without
    target written with nothing after its comma, it returns these triples
    in their order and leaves unread what follows, which must start with a
    token that is not a caret. *)
Theorem parse_triples_conjunction :
  forall (triples : list Triple) (rest : TokenIterator),
    triples <> [] ->
    not_caret_next at_end rest = true ->
    parse_triples at_end (conjunction triples ++ rest)
    = Return (triples, rest).
Proof.
  intros triples rest Hne Hrest. unfold parse_triples.
  rewrite parse_triples_loop_conjunction; try assumption; [reflexivity|].
  unfold fuel_for. rewrite length_app.
  pose proof (conjunction_length triples). lia.
Qed.

Lemma parse_triples_loop_grows (fuel : nat) :
  forall (target : option Constant) (acc out : list Triple)
         (ts rest : TokenIterator),
    _parse_triples_loop at_end fuel target acc ts = Return (out, rest) ->
    exists t new, out = acc ++ t :: new.
Proof.
  induction fuel as [|fuel IH]; intros target acc out ts rest H;
    [discriminate|].
  cbn [_parse_triples_loop] in H.
  apply bind_Return in H as (r & ts1 & _ & H).
  apply bind_Return in H as (lp & ts2 & _ & H).
  apply bind_Return in H as (s & ts3 & _ & H).
  apply bind_Return in H as (co & ts4 & _ & H).
  apply bind_Return in H as (nxt & ts5 & _ & H).
  apply bind_Return in H as (target' & ts6 & _ & H).
  apply bind_Return in H as (rp & ts7 & _ & H).
  apply bind_Return in H as (t & ts8 & _ & H).
  destruct (is_type t "CARET").
  - apply bind_Return in H as (c & ts9 & _ & H).
    apply IH in H as (t' & new & ->).
    exists (text s, text r, target'), (t' :: new).
    now rewrite <- app_assoc.
  - apply ret_Return in H as [-> ->].
    now exists (text s, text r, target'), [].
Qed.

(** [parse_triples] never returns an empty list: a stream that holds no
    triple is an error. *)
Theorem parse_triples_nonempty :
  forall (tokens rest : TokenIterator) (triples : list Triple),
    parse_triples at_end tokens = Return (triples, rest) ->
    triples <> [].
Proof.
  intros tokens rest triples H. unfold parse_triples in H.
  apply parse_triples_loop_grows in H as (t & new & ->). discriminate.
Qed.

(** When the loop of [parse_triples] returns, it has just peeked at a
    token that is not a caret: the stream it leaves starts with that
    token. *)
Lemma parse_triples_loop_stops (fuel : nat) :
  forall (target : option Constant) (acc out : list Triple)
         (ts rest : TokenIterator),
    _parse_triples_loop at_end fuel target acc ts = Return (out, rest) ->
    not_caret_next at_end rest = true.
Proof.
  induction fuel as [|fuel IH]; intros target acc out ts rest H;
    [discriminate|].
  cbn [_parse_triples_loop] in H.
  apply bind_Return in H as (r & ts1 & _ & H).
  apply bind_Return in H as (lp & ts2 & _ & H).
  apply bind_Return in H as (s & ts3 & _ & H).
  apply bind_Return in H as (co & ts4 & _ & H).
  apply bind_Return in H as (nxt & ts5 & _ & H).
  apply bind_Return in H as (target' & ts6 & _ & H).
  apply bind_Return in H as (rp & ts7 & _ & H).
  apply bind_Return in H as (t & ts8 & Hpeek & H).
  apply peek_Return in Hpeek as [-> Hcur].
  destruct (is_type t "CARET") eqn:Ht.
  - apply bind_Return in H as (c & ts9 & _ & H). now apply IH in H.
  - apply ret_Return in H as [_ ->].
    unfold not_caret_next. now rewrite Hcur, Ht.
Qed.

End TripleConjunctions.

(** On a stream whose [peek] raises once its tokens are read,
    [parse_triples] never returns with every token read: a text that ends
    after its last triple raises. *)
Lemma parse_triples_never_reads_all (e : PenmanSyntaxError)
    (tokens rest : TokenIterator) (triples : list Triple) :
  parse_triples (inl e) tokens = Return (triples, rest) -> rest <> [].
Proof.
  intros H. unfold parse_triples in H.
  apply parse_triples_loop_stops in H. now intros ->.
Qed.

Lemma parse_triples_conjunction_witness :
  parse_triples (inr end_marker)
    (conjunction [("b", "instance", Some (CStr "bark")); ("b", "ARG1", None)]
     ++ [])
  = Return ([("b", "instance", Some (CStr "bark")); ("b", "ARG1", None)], []).
Proof.
  apply (parse_triples_conjunction (inr end_marker)
           [("b", "instance", Some (CStr "bark")); ("b", "ARG1", None)] []).
  - discriminate.
  - reflexivity.
Defined.

Lemma parse_triples_nonempty_witness : conjunction_triples <> [].
Proof.
  apply (parse_triples_nonempty (inr end_marker) conjunction_tokens []).
  reflexivity.
Defined.

Lemma parse_answers_always_witness :
  answers (parse (inr end_marker) dangling_tokens).
Proof.
  apply (parse_answers_always (inr end_marker)). reflexivity.
Defined.

(** ** Decoding written markers *)

Section DecodeWritten.

Import AlignmentRe.

Lemma digit_code (c : ascii) :
  is_digit c = true <-> (48 <= nat_of_ascii c <= 57)%nat.
Proof.
  unfold is_digit. rewrite andb_true_iff, !Nat.leb_le. tauto.
Qed.

Lemma digit_not_letter (c : ascii) : is_digit c = true -> is_letter c = false.
Proof.
  intros H. apply digit_code in H. unfold is_letter.
  apply orb_false_iff. split; apply andb_false_iff.
  - left. apply Nat.leb_gt. lia.
  - left. apply Nat.leb_gt. lia.
Qed.

Lemma digit_not_char (c x : ascii) :
  is_digit c = true ->
  (nat_of_ascii x < 48)%nat ->
  Ascii.eqb c x = false.
Proof.
  intros H Hx. apply digit_code in H. apply Ascii.eqb_neq.
  intros ->. lia.
Qed.

Lemma more_indices_digits (d r : string) :
  digits_only d = true -> more_indices (d +:+ r) = d +:+ more_indices r.
Proof.
  induction d as [|c d IH]; intros H; [reflexivity|].
  cbn [digits_only] in H. apply andb_true_iff in H as [Hc H].
  rewrite !append_cons. cbn [more_indices]. now rewrite Hc, IH.
Qed.

Lemma more_indices_comma (d r : string) :
  index_text d = true ->
  more_indices ("," +:+ d +:+ r) = "," +:+ d +:+ more_indices r.
Proof.
  unfold index_text. intros H. apply andb_true_iff in H as [Hne H].
  destruct d as [|c d]; [discriminate|].
  pose proof H as H'. cbn [digits_only] in H'.
  apply andb_true_iff in H' as [Hc _].
  change ("," +:+ String c d +:+ r) with (String "," (String c d +:+ r)).
  rewrite append_cons. cbn [more_indices].
  change (is_digit ",") with false. cbn iota.
  change (Ascii.eqb "," ",") with true. cbn iota. rewrite Hc.
  cbn [digits_only] in H. apply andb_true_iff in H as [_ H].
  now rewrite (more_indices_digits _ _ H).
Qed.

Lemma more_indices_end (junk : string) :
  ends_indices junk = true -> more_indices junk = "".
Proof.
  destruct junk as [|c j]; [reflexivity|]. cbn [ends_indices more_indices].
  intros H. apply andb_true_iff in H as [Hc H].
  apply negb_true_iff in Hc, H. rewrite Hc.
  destruct (Ascii.eqb c ","); [|reflexivity].
  cbn [andb] in H. destruct j as [|d j]; [reflexivity|]. now rewrite H.
Qed.

Lemma more_indices_commas (ixs : list string) (junk : string) :
  forallb index_text ixs = true ->
  ends_indices junk = true ->
  more_indices (commas ixs +:+ junk) = commas ixs.
Proof.
  intros H Hj. induction ixs as [|d ixs IH].
  - cbn [commas]. now apply more_indices_end.
  - cbn [forallb] in H. apply andb_true_iff in H as [Hd H].
    cbn [commas]. rewrite !append_assoc.
    rewrite (more_indices_comma _ _ Hd), (IH H). reflexivity.
Qed.

Lemma join_commas (d : string) (ixs : list string) :
  Str.join "," (d :: ixs) = d +:+ commas ixs.
Proof.
  revert d. induction ixs as [|d' ixs IH]; intros d.
  - cbn. now rewrite append_nil_r.
  - change (Str.join "," (d :: d' :: ixs))
      with (d +:+ "," +:+ Str.join "," (d' :: ixs)).
    now rewrite IH.
Qed.

Lemma match_indices_join (d : string) (ixs : list string) (junk : string) :
  forallb index_text (d :: ixs) = true ->
  ends_indices junk = true ->
  match_indices (Str.join "," (d :: ixs) +:+ junk)
  = Some (Str.join "," (d :: ixs)).
Proof.
  intros H Hj. cbn [forallb] in H. apply andb_true_iff in H as [Hd H].
  rewrite join_commas, append_assoc. unfold index_text in Hd.
  apply andb_true_iff in Hd as [Hne Hd].
  destruct d as [|c d]; [discriminate|]. cbn [digits_only] in Hd.
  apply andb_true_iff in Hd as [Hc Hd]. rewrite !append_cons.
  cbn [match_indices]. rewrite Hc.
  now rewrite (more_indices_digits _ _ Hd), (more_indices_commas _ _ H Hj).
Qed.

Lemma split_comma_digits (d r : string) :
  digits_only d = true ->
  Str.split_comma (d +:+ r)
  = match Str.split_comma r with
    | h :: t => (d +:+ h) :: t
    | [] => [d]
    end.
Proof.
  induction d as [|c d IH]; intros H.
  - change ("" +:+ r) with r. pose proof (split_comma_nonempty r).
    now destruct (Str.split_comma r).
  - cbn [digits_only] in H. apply andb_true_iff in H as [Hc H].
    rewrite append_cons. cbn [Str.split_comma].
    rewrite (digit_not_char c ","%char Hc)
      by (apply Nat.ltb_lt; reflexivity).
    rewrite (IH H). pose proof (split_comma_nonempty r).
    now destruct (Str.split_comma r).
Qed.

Lemma split_comma_commas (ixs : list string) :
  forallb index_text ixs = true ->
  Str.split_comma (commas ixs) = "" :: ixs.
Proof.
  induction ixs as [|d ixs IH]; intros H; [reflexivity|].
  cbn [forallb] in H. apply andb_true_iff in H as [Hd H].
  unfold index_text in Hd. apply andb_true_iff in Hd as [_ Hd].
  cbn [commas].
  change ("," +:+ d +:+ commas ixs) with (String "," (d +:+ commas ixs)).
  cbn [Str.split_comma]. change (Ascii.eqb "," ",") with true. cbn iota.
  rewrite (split_comma_digits _ _ Hd), (IH H).
  now rewrite append_nil_r.
Qed.

Lemma split_comma_join (d : string) (ixs : list string) :
  forallb index_text (d :: ixs) = true ->
  Str.split_comma (Str.join "," (d :: ixs)) = d :: ixs.
Proof.
  intros H. cbn [forallb] in H. apply andb_true_iff in H as [Hd H].
  unfold index_text in Hd. apply andb_true_iff in Hd as [_ Hd].
  rewrite join_commas, (split_comma_digits _ _ Hd), (split_comma_commas _ H).
  now rewrite append_nil_r.
Qed.

(** The groups of a marker text: its prefix and its indices, whatever
    follows them. *)
Lemma groups_marker_text (p : option string) (ixs : list string)
    (junk : string) :
  prefix_ok p = true ->
  ixs <> [] ->
  forallb index_text ixs = true ->
  ends_indices junk = true ->
  groups (marker_text p ixs junk) = Some (p, Str.join "," ixs).
Proof.
  intros Hp Hne Hix Hj. destruct ixs as [|d ixs]; [congruence|].
  pose proof (match_indices_join d ixs junk Hix Hj) as Hm.
  unfold marker_text.
  assert (exists c s, Str.join "," (d :: ixs) +:+ junk = String c s
                      /\ is_digit c = true) as (c & s & Hs & Hc).
  { rewrite join_commas, append_assoc. cbn [forallb] in Hix.
    apply andb_true_iff in Hix as [Hd _]. unfold index_text in Hd.
    apply andb_true_iff in Hd as [Hd1 Hd2].
    destruct d as [|c d]; [discriminate|]. cbn [digits_only] in Hd2.
    apply andb_true_iff in Hd2 as [Hc _]. rewrite append_cons. eauto. }
  destruct p as [[|a [|b [|x y]]]|]; try discriminate; cbn [prefix_text].
  - (* a letter *)
    cbn [prefix_ok] in Hp.
    change ("~" +:+ String a "" +:+ Str.join "," (d :: ixs) +:+ junk)
      with (String "~" (String a (Str.join "," (d :: ixs) +:+ junk))).
    rewrite Hs in Hm |- *. cbn [groups]. rewrite Hp.
    destruct c as [b0 b1 b2 b3 b4 b5 b6 b7].
    destruct b0, b1, b2, b3, b4, b5, b6, b7;
      try (vm_compute in Hc; discriminate Hc);
      cbn zeta; rewrite Hm; reflexivity.
  - (* a letter and a dot *)
    cbn [prefix_ok] in Hp. apply andb_true_iff in Hp as [Ha Hb].
    apply Ascii.eqb_eq in Hb. subst b.
    change ("~" +:+ String a (String "." "")
            +:+ Str.join "," (d :: ixs) +:+ junk)
      with (String "~"
              (String a (String "." (Str.join "," (d :: ixs) +:+ junk)))).
    cbn [groups]. now rewrite Ha, Hm.
  - (* no prefix *)
    change ("~" +:+ "" +:+ Str.join "," (d :: ixs) +:+ junk)
      with (String "~" (Str.join "," (d :: ixs) +:+ junk)).
    cbn [groups]. rewrite Hm, Hs. now rewrite (digit_not_letter c Hc).
Qed.

Lemma decode_marker_text (c : MarkerClass) (p : option string)
    (ixs : list string) (junk : string) :
  prefix_ok p = true ->
  ixs <> [] ->
  forallb index_text ixs = true ->
  ends_indices junk = true ->
  decode_alignment c (marker_text p ixs junk) = mkMarker c (map int ixs) p.
Proof.
  intros Hp Hne Hix Hj. unfold decode_alignment.
  rewrite (groups_marker_text p ixs junk Hp Hne Hix Hj).
  destruct ixs as [|d ixs]; [congruence|].
  now rewrite (split_comma_join d ixs Hix).
Qed.

Lemma int_from_uint (d : Decimal.uint) (acc : Z) :
  int_from acc (NilEmpty.string_of_uint d) = uint_value acc d.
Proof.
  revert acc. induction d; intros acc;
    cbn [NilEmpty.string_of_uint int_from uint_value];
    [reflexivity | rewrite IHd; reflexivity ..].
Qed.

Lemma uint_value_pos (d : Decimal.uint) (acc : positive) :
  uint_value (Z.pos acc) d = Z.pos (Pos.of_uint_acc d acc).
Proof.
  revert acc. induction d; intros acc; cbn [uint_value Pos.of_uint_acc];
    [reflexivity | rewrite <- IHd; f_equal; lia ..].
Qed.

Lemma uint_value_zero (d : Decimal.uint) :
  uint_value 0 d = Z.of_N (Pos.of_uint d).
Proof.
  induction d; cbn [uint_value Pos.of_uint Z.of_N];
    [reflexivity | exact IHd | apply uint_value_pos ..].
Qed.

(** Reading the decimal text of a number that is not negative gives the
    number back. *)
Lemma int_str_int (z : Z) : (0 <= z)%Z -> int (str_int z) = z.
Proof.
  intros Hz. destruct z as [|p|p]; [reflexivity| |lia].
  unfold int, str_int. cbn [Z.to_int NilZero.string_of_int].
  pose proof (Unsigned.to_uint_nonnil p) as Hnil.
  unfold NilZero.string_of_uint.
  destruct (Pos.to_uint p) eqn:Hd; [congruence | rewrite <- Hd ..];
    now rewrite int_from_uint, uint_value_zero, Unsigned.of_to.
Qed.

Lemma digits_only_uint (d : Decimal.uint) :
  digits_only (NilEmpty.string_of_uint d) = true.
Proof. induction d; cbn; [reflexivity | exact IHd ..]. Qed.

Lemma index_text_str_int (z : Z) : (0 <= z)%Z -> index_text (str_int z) = true.
Proof.
  intros Hz. destruct z as [|p|p]; [reflexivity| |lia].
  unfold str_int. cbn [Z.to_int NilZero.string_of_int].
  pose proof (Unsigned.to_uint_nonnil p) as Hnil.
  unfold NilZero.string_of_uint, index_text.
  destruct (Pos.to_uint p) eqn:Hd; [congruence | rewrite <- Hd ..];
    rewrite digits_only_uint, andb_true_r; rewrite Hd; reflexivity.
Qed.

(** Decoding inverts the written form of a marker: the text made of a
    tilde, a prefix of one letter with or without a dot (or none), and one
    or more indices in decimal separated by commas decodes to the marker
    with this prefix and these indices; text after the indices that cannot
    continue them is ignored. *)
Theorem decode_written_marker :
  forall (c : MarkerClass) (p : option string) (zs : list Z) (junk : string),
    prefix_ok p = true ->
    zs <> [] ->
    forallb (Z.leb 0) zs = true ->
    ends_indices junk = true ->
    decode_alignment c (marker_text p (map str_int zs) junk)
    = mkMarker c zs p.
Proof.
  intros c p zs junk Hp Hne Hzs Hj.
  rewrite forallb_forall in Hzs.
  rewrite decode_marker_text; try assumption.
  - f_equal. rewrite map_map. rewrite <- (map_id zs) at 2.
    apply map_ext_in. intros z Hz. apply int_str_int.
    apply Z.leb_le. now apply Hzs.
  - now destruct zs.
  - rewrite forallb_forall. intros s Hs. apply in_map_iff in Hs
      as (z & <- & Hz).
    apply index_text_str_int. apply Z.leb_le. now apply Hzs.
Qed.

Lemma int_from_nonnegative (s : string) (acc : Z) :
  (0 <= acc)%Z -> (0 <= int_from acc s)%Z.
Proof.
  revert acc. induction s as [|x s IH]; intros acc Hacc; cbn [int_from];
    [exact Hacc|].
  apply IH. lia.
Qed.

(** Whatever the text, no decoded index is negative. *)
Theorem decoded_indices_nonnegative :
  forall (c : MarkerClass) (text : string),
    Forall (fun z => (0 <= z)%Z) (indices (decode_alignment c text)).
Proof.
  intros c text. unfold decode_alignment.
  destruct (groups text) as [[p ix]|]; cbn [indices]; [|constructor].
  apply Forall_forall. intros z Hz. apply list_elem_of_In in Hz.
  apply in_map_iff in Hz as (s & <- & _).
  now apply int_from_nonnegative.
Qed.

End DecodeWritten.

Lemma decode_written_marker_witness :
  decode_alignment Alignment (marker_text (Some "e.") ["10"; "7"] ",x")
  = mkMarker Alignment [10%Z; 7%Z] (Some "e.").
Proof.
  apply (decode_written_marker Alignment (Some "e.") [10%Z; 7%Z] ",x");
    [reflexivity | discriminate | reflexivity | reflexivity].
Defined.

(** ** More on metadata *)

Section MetadataEdges.

Variable at_end : PenmanSyntaxError + Token.

Lemma find_split_none (sep s : string) :
  Str.contains s sep = false -> Str.find_split sep s = None.
Proof.
  induction s as [|c s IH]; cbn [Str.contains Str.find_split]; intros H.
  - apply orb_false_iff in H as [H _]. now rewrite H.
  - apply orb_false_iff in H as [Hp H]. rewrite Hp. now rewrite (IH H).
Qed.

(** A key that is written without a value gets the empty string: the
    comment [pre ::key], where the key has no space and no two colons in a
    row and does not start with a colon, enters the key with the value
    [''] before the pairs to its left are read. *)
Theorem parse_comment_key_only :
  forall (head key : string) (md : Dict),
    Str.contains key " " = false ->
    Str.contains key "::" = false ->
    Str.startswith key ":" = false ->
    parse_comment (head +:+ "::" +:+ key) md
    = parse_comment head (dict_set md key "").
Proof.
  intros head key md Hspace Hcolons Hcolon.
  rewrite parse_comment_unfold, truthy_with_colons.
  unfold Str.rpartition.
  rewrite (rfind_split_colons _ _ Hcolons Hcolon). cbn [Str.truthy].
  unfold Str.partition. now rewrite (find_split_none _ _ Hspace).
Qed.

Lemma parse_comments_loop_reads :
  forall (fuel : nat) (md d : Dict) (ts rest : TokenIterator),
    _parse_comments_loop at_end fuel md ts = Return (d, rest) ->
    exists comments : list Token,
      ts = comments ++ rest
      /\ Forall (fun t => is_type t "COMMENT" = true) comments
      /\ d = fold_left (fun m t => parse_comment (text t) m) comments md
      /\ not_comment_next at_end rest = true.
Proof.
  induction fuel as [|fuel IH]; intros md d ts rest H; [discriminate|].
  cbn [_parse_comments_loop] in H.
  apply bind_Return in H as (t & ts1 & Ht & H).
  apply peek_Return in Ht as [-> Hcur].
  destruct (is_type t "COMMENT") eqn:Hc.
  - apply bind_Return in H as (c & ts2 & Hn & H).
    apply next_Return in Hn as [-> Hcur']. rewrite Hcur in Hcur'.
    injection Hcur' as <-.
    apply IH in H as (comments & Hts & Hall & Hd & Hrest).
    destruct ts as [|t0 ts].
    + (* the end marker is a comment: nothing is ever returned *)
      cbn [tail] in Hts. destruct comments; [|discriminate].
      cbn [app] in Hts. subst rest. unfold not_comment_next in Hrest.
      rewrite Hcur, Hc in Hrest. discriminate.
    + cbn in Hcur. injection Hcur as ->. cbn [tail] in Hts.
      exists (t :: comments). cbn [app fold_left]. rewrite Hts.
      repeat split; try assumption. now constructor.
  - apply ret_Return in H as [-> ->]. exists [].
    repeat split; [constructor|]. unfold not_comment_next.
    now rewrite Hcur, Hc.
Qed.

Lemma dict_set_NoDup (d : Dict) (k v : string) :
  NoDup (dict_keys d) -> NoDup (dict_keys (dict_set d k v)).
Proof.
  intros H. rewrite dict_keys_set.
  destruct (bool_decide (k ∈ dict_keys d)) eqn:Hk; [exact H|].
  apply bool_decide_eq_false in Hk. apply NoDup_app.
  repeat split; [exact H| |apply NoDup_singleton].
  intros x Hx Hx'. apply list_elem_of_singleton in Hx'. now subst x.
Qed.

Lemma comment_loop_NoDup (fuel : nat) (c : string) (md : Dict) :
  NoDup (dict_keys md) -> NoDup (dict_keys (comment_loop fuel c md)).
Proof.
  revert c md. induction fuel as [|fuel IH]; intros c md H; [exact H|].
  cbn [comment_loop]. destruct (Str.truthy c); [|exact H].
  destruct (Str.rpartition c "::") as [[c' found] meta].
  destruct (Str.truthy found); [|now apply IH].
  destruct (Str.partition meta " ") as [[key sp] value].
  apply IH. now apply dict_set_NoDup.
Qed.

(** [_parse_comments] reads comments only: it takes the comment tokens
    off the front of the stream, enters their pairs one comment after the
    other, and leaves a stream that does not go on with a comment. *)
Theorem parse_comments_reads_comments :
  forall (fuel : nat) (d : Dict) (ts rest : TokenIterator),
    _parse_comments at_end fuel ts = Return (d, rest) ->
    exists comments : list Token,
      ts = comments ++ rest
      /\ Forall (fun t => is_type t "COMMENT" = true) comments
      /\ d = fold_left (fun m t => parse_comment (text t) m) comments []
      /\ not_comment_next at_end rest = true.
Proof.
  intros fuel d ts rest H. now apply parse_comments_loop_reads in H.
Qed.

(** Whatever the comments are, no key is listed twice in the metadata. *)
Theorem parse_comments_keys_unique :
  forall (fuel : nat) (d : Dict) (ts rest : TokenIterator),
    _parse_comments at_end fuel ts = Return (d, rest) ->
    NoDup (dict_keys d).
Proof.
  intros fuel d ts rest H. unfold _parse_comments in H.
  apply parse_comments_loop_reads in H as (comments & _ & _ & -> & _).
  assert (NoDup (dict_keys [])) as Hnil by constructor.
  revert Hnil. generalize ([] : Dict).
  induction comments as [|t comments IH]; intros md Hmd; [exact Hmd|].
  cbn [fold_left]. apply IH. now apply comment_loop_NoDup.
Qed.

End MetadataEdges.

Lemma parse_comment_key_only_witness :
  parse_comment ("# ::id 7 " +:+ "::final") []
  = parse_comment "# ::id 7 " (dict_set [] "final" "").
Proof.
  apply (parse_comment_key_only "# ::id 7 " "final" []); reflexivity.
Defined.

Lemma parse_comments_reads_comments_witness :
  exists comments : list Token,
    comment_token "# ::id 1" :: dangling_tokens = comments ++ dangling_tokens
    /\ Forall (fun t => is_type t "COMMENT" = true) comments
    /\ [("id", "1")]
       = fold_left (fun m t => parse_comment (text t) m) comments []
    /\ not_comment_next (inl ErrorEndOfInput) dangling_tokens = true.
Proof.
  apply (parse_comments_reads_comments (inl ErrorEndOfInput) 3
           [("id", "1")] (comment_token "# ::id 1" :: dangling_tokens)
           dangling_tokens).
  reflexivity.
Defined.

Lemma parse_comments_keys_unique_witness :
  NoDup (dict_keys [("id", "3"); ("date", "2020")]).
Proof.
  apply (parse_comments_keys_unique (inl ErrorEndOfInput) 4
           [("id", "3"); ("date", "2020")]
           (map comment_token ["# ::id 1"; "# ::date 2020"; "# ::id 3"]
            ++ dangling_tokens) dangling_tokens).
  reflexivity.
Defined.

(** ** More on the layout *)

Section LayoutCases.

Variable str_marker : AlignmentMarker -> string.
Variable none_is_atomic : bool.

Abbreviation fnode := (_format_node str_marker none_is_atomic).
Abbreviation fedge := (_format_edge str_marker none_is_atomic).
Abbreviation compactable_in := (compactable none_is_atomic).

(** Without [compact] no identifier is compared with: a node with an
    identifier and edges is written with every edge as a part of its own,
    the parts joined by the joiner, and [format] writes the metadata lines
    and then the root in this way. *)
Theorem plain_layout :
  forall (tree : Tree) (indent : option Z) (id : option Constant)
         (edges : list Edge) (column : Z),
    truthy_opt id = true ->
    edges <> [] ->
    format str_marker none_is_atomic tree indent false
    = Str.join LF
        (map metadata_line (metadata tree)
         ++ [fnode (node tree) indent 0 ∅])
    /\ fnode (mkNode id edges) indent column ∅
       = "(" +:+ str_opt id +:+ " "
           +:+ Str.join (edges_joiner indent column id)
                 (map (fun e => fedge e indent
                                  (edges_column indent column id) ∅) edges)
           +:+ ")".
Proof.
  intros tree indent id edges column Hid Hedges. split.
  - unfold format. cbn [node metadata list_to_set]. f_equal. f_equal.
    apply map_ext. now intros [k v].
  - now rewrite (format_node_layout str_marker none_is_atomic id edges
                   indent column ∅ Hid Hedges).
Qed.

Lemma leading_run_all {A} (p : A -> bool) (l : list A) :
  forallb p l = true -> leading_run p l = l /\ after_run p l = [].
Proof.
  induction l as [|x l IH]; [now split|]. cbn [forallb leading_run after_run].
  intros H. apply andb_true_iff in H as [Hx H]. rewrite Hx.
  destruct (IH H) as [-> ->]. now split.
Qed.

Lemma format_edge_atomic (e : Edge) (indent : option Z) (column : Z)
    (ids : gset Constant) :
  compactable_in ids e = true -> fedge e indent column ids = fedge e None 0 ids.
Proof.
  destruct e as [role target epidata]. unfold compactable.
  cbn [edge_target]. intros H. apply andb_true_iff in H as [H _].
  destruct target; [reflexivity | reflexivity | discriminate].
Qed.

(** A node whose edges all have atomic targets that are no node's
    identifier is written on one line, under every [indent] and at every
    column, when there are identifiers to compare with. *)
Theorem compact_node_one_line :
  forall (id : option Constant) (edges : list Edge) (indent : option Z)
         (column : Z) (ids : gset Constant),
    truthy_opt id = true ->
    edges <> [] ->
    ids <> ∅ ->
    forallb (compactable_in ids) edges = true ->
    fnode (mkNode id edges) indent column ids
    = "(" +:+ str_opt id +:+ " "
        +:+ Str.join " " (map (fun e => fedge e None 0 ids) edges)
        +:+ ")".
Proof.
  intros id edges indent column ids Hid Hedges Hids Hall.
  rewrite (format_node_layout str_marker none_is_atomic id edges indent
             column ids Hid Hedges).
  rewrite bool_decide_eq_false_2 by exact Hids.
  destruct (leading_run_all _ _ Hall) as [-> ->]. cbn [map].
  rewrite app_nil_r.
  assert (map (fun e => fedge e indent (edges_column indent column id) ids)
              edges
          = map (fun e => fedge e None 0 ids) edges) as ->.
  { apply map_ext_in. intros e He. apply format_edge_atomic.
    rewrite forallb_forall in Hall. now apply Hall. }
  destruct edges as [|e es]; [congruence|]. reflexivity.
Qed.

End LayoutCases.

Lemma plain_layout_witness :
  _format_node (fun _ => "") true two_edge_node (Some 2%Z) 0 ∅
  = "(b :x 1" +:+ LF +:+ "  :y 2)".
Proof.
  refine (eq_trans
    (proj2 (plain_layout (fun _ => "") true (mkTree two_edge_node [])
              (Some 2%Z) (Some (CStr "b")) (node_edges two_edge_node) 0 _ _))
    _).
  - reflexivity.
  - discriminate.
  - reflexivity.
Defined.

Lemma compact_node_one_line_witness :
  _format_node (fun _ => "") true two_edge_node (Some (-1)%Z) 5
    {[ CStr "b" ]}
  = "(b :x 1 :y 2)".
Proof.
  refine (eq_trans
    (compact_node_one_line (fun _ => "") true (Some (CStr "b"))
       (node_edges two_edge_node) (Some (-1)%Z) 5 {[ CStr "b" ]} _ _ _ _) _).
  - reflexivity.
  - discriminate.
  - set_solver.
  - reflexivity.
  - reflexivity.
Defined.

(** ** One line without indentation *)

Section SingleLine.

Variable str_marker : AlignmentMarker -> string.
Variable none_is_atomic : bool.

Lemma contains_LF_app (a b : string) :
  Str.contains (a +:+ b) LF = Str.contains a LF || Str.contains b LF.
Proof.
  induction a as [|c a IH].
  - change ("" +:+ b) with b. cbn [Str.contains Str.startswith LF].
    cbn [orb]. reflexivity.
  - rewrite append_cons. cbn [Str.contains Str.startswith LF].
    rewrite IH. rewrite !andb_true_r. now rewrite orb_assoc.
Qed.

Lemma one_liner_app (a b : string) :
  one_liner (a +:+ b) = one_liner a && one_liner b.
Proof. unfold one_liner. rewrite contains_LF_app. apply negb_orb. Qed.

Lemma one_liner_join (sep : string) (parts : list string) :
  one_liner sep = true ->
  forallb one_liner parts = true ->
  one_liner (Str.join sep parts) = true.
Proof.
  intros Hsep. induction parts as [|p parts IH]; [reflexivity|].
  cbn [forallb]. intros H. apply andb_true_iff in H as [Hp H].
  destruct parts as [|q parts]; [exact Hp|].
  change (Str.join sep (p :: q :: parts))
    with (p +:+ sep +:+ Str.join sep (q :: parts)).
  rewrite !one_liner_app, Hp, Hsep. now rewrite (IH H).
Qed.

Lemma one_liner_epi_text (m : Z) (epidata : list AlignmentMarker) :
  forallb (fun x => one_liner (str_marker x)) epidata = true ->
  one_liner (epi_text str_marker m epidata) = true.
Proof.
  intros H. unfold epi_text. apply one_liner_join; [reflexivity|].
  rewrite forallb_forall in *. intros s Hs.
  apply in_map_iff in Hs as (x & <- & Hx). apply H.
  apply list_elem_of_In in Hx. apply list_elem_of_filter in Hx as [_ Hx].
  now apply list_elem_of_In.
Qed.

Lemma texts_one_liners_edges (id : option Constant) (edges : list Edge) :
  texts_one_liners str_marker (mkNode id edges)
  = one_liner (str_opt id) && forallb (edge_one_liners str_marker) edges.
Proof.
  cbn [texts_one_liners]. f_equal.
  induction edges as [|[r t e] edges IH]; [reflexivity|].
  cbn [forallb edge_one_liners]. now rewrite IH.
Qed.

Lemma node_size_edges (id : option Constant) (edges : list Edge) :
  node_size (mkNode id edges) = S (list_sum (map edge_size edges)).
Proof.
  cbn [node_size]. f_equal.
  induction edges as [|[r t e] edges IH]; [reflexivity|].
  cbn [map list_sum]. unfold edge_size at 1. cbn [edge_target].
  destruct t; rewrite IH; unfold list_sum; cbn [fold_right]; lia.
Qed.

Lemma edge_size_in (e : Edge) (edges : list Edge) :
  e ∈ edges -> (edge_size e <= list_sum (map edge_size edges))%nat.
Proof.
  induction edges as [|e' edges IH]; intros H.
  - now apply elem_of_nil in H.
  - apply elem_of_cons in H as [-> | H]; cbn [map];
      unfold list_sum in *; cbn [fold_right]; [lia|].
    specialize (IH H). lia.
Qed.

Lemma format_node_one_liner_bounded (k : nat) :
  forall (n : Node) (column : Z) (ids : gset Constant),
    (node_size n <= k)%nat ->
    texts_one_liners str_marker n = true ->
    one_liner (_format_node str_marker none_is_atomic n None column ids)
    = true.
Proof.
  induction k as [|k IH]; intros [id edges] column ids Hsize Htexts.
  - cbn [node_size] in Hsize. lia.
  - rewrite texts_one_liners_edges in Htexts.
    apply andb_true_iff in Htexts as [Hid Hedges].
    rewrite node_size_edges in Hsize.
    destruct (truthy_opt id) eqn:Htruthy;
      [|cbn [_format_node]; now rewrite Htruthy].
    destruct edges as [|e0 es] eqn:Hes.
    { cbn [_format_node]. rewrite Htruthy. cbn [negb].
      now rewrite !one_liner_app, Hid. }
    rewrite <- Hes in *.
    assert (edges <> []) as Hne by (rewrite Hes; discriminate).
    rewrite (format_node_layout str_marker none_is_atomic id edges None
               column ids Htruthy Hne).
    cbn [edges_joiner edges_column].
    set (f := fun e => _format_edge str_marker none_is_atomic e None
                         column ids).
    assert (forall l, (forall e, e ∈ l -> e ∈ edges) ->
                      forallb one_liner (map f l) = true) as Hparts.
    { intros l Hl. rewrite forallb_forall. intros s Hs.
      apply in_map_iff in Hs as (e & <- & He).
      apply list_elem_of_In in He. apply Hl in He.
      pose proof (edge_size_in e edges He) as Hle.
      rewrite forallb_forall in Hedges.
      assert (edge_one_liners str_marker e = true) as Hline
        by (apply Hedges; now apply list_elem_of_In).
      destruct e as [role target epidata]. unfold f. cbn [_format_edge].
      cbn [edge_one_liners] in Hline.
      apply andb_true_iff in Hline as [Hline Htarget].
      apply andb_true_iff in Hline as [Hrole Hepi].
      rewrite !one_liner_app, Hrole, !one_liner_epi_text by exact Hepi.
      cbn [andb]. rewrite andb_true_r.
      destruct target as [|c|m]; [reflexivity | exact Htarget |].
      apply IH; [|exact Htarget].
      change (edge_size (mkEdge role (TNode m) epidata))
        with (S (node_size m)) in Hle.
      lia. }
    assert (forall l, leading_run (compactable none_is_atomic ids) l ⊆ l
                      /\ after_run (compactable none_is_atomic ids) l ⊆ l)
      as Hsub.
    { induction l as [|x l [IH1 IH2]]; [split; reflexivity|].
      cbn [leading_run after_run].
      destruct (compactable none_is_atomic ids x); split.
      - intros y Hy. apply elem_of_cons in Hy as [-> | Hy];
          [apply list_elem_of_here|].
        apply list_elem_of_further. now apply IH1.
      - intros y Hy. apply list_elem_of_further. now apply IH2.
      - intros y Hy. now apply elem_of_nil in Hy.
      - reflexivity. }
    rewrite !one_liner_app. cbn [andb]. rewrite Hid. cbn [andb].
    rewrite andb_true_r. apply one_liner_join; [reflexivity|].
    destruct (bool_decide (ids = ∅)).
    + apply Hparts. auto.
    + destruct (Hsub edges) as [Hrun Hrest].
      rewrite forallb_app. apply andb_true_iff. split.
      * pose proof (Hparts _ Hrun) as Hr. unfold one_line.
        destruct (map f (leading_run (compactable none_is_atomic ids) edges))
          as [|p ps] eqn:Hmap; [reflexivity|].
        cbn [forallb]. rewrite andb_true_r.
        apply one_liner_join; [reflexivity | exact Hr].
      * now apply Hparts.
Qed.

(** With [indent=None] a node is written on a single line: when none of
    the identifiers, roles, atoms and markers in it has a line feed, its
    text has none. *)
Theorem format_node_single_line :
  forall (n : Node) (column : Z) (ids : gset Constant),
    texts_one_liners str_marker n = true ->
    Str.contains (_format_node str_marker none_is_atomic n None column ids)
      LF = false.
Proof.
  intros n column ids H. apply negb_true_iff.
  now apply (format_node_one_liner_bounded (node_size n)).
Qed.

End SingleLine.

Lemma format_node_single_line_witness :
  Str.contains
    (_format_node (fun _ => "") true two_atoms_then_node None 0 ∅) LF
  = false.
Proof.
  apply (format_node_single_line (fun _ => "") true two_atoms_then_node 0 ∅).
  reflexivity.
Defined.

Lemma auto_indent_follows_cursor_witness :
  (_format_node (fun _ => "") true two_edge_node (Some (-1)%Z) 3 ∅
   = "(b " +:+ Str.join (LF +:+ Str.repeat " " 6) [":x 1"; ":y 2"] +:+ ")"
   /\ cursor_after 40 (LF +:+ Str.repeat " " 6) = 6%Z)
  /\ _format_edge (fun _ => "") true (mkEdge "ARG0" (TNode two_edge_node) [])
       (Some (-1)%Z) 6 ∅
     = ":ARG0 " +:+ _format_node (fun _ => "") true two_edge_node
                      (Some (-1)%Z) 12 ∅.
Proof.
  assert (node_edges two_edge_node <> []) as Hedges by discriminate.
  assert (0 <= 3)%Z as Hcol by lia.
  destruct (auto_indent_follows_cursor (fun _ => "") true (Some (CStr "b"))
              (node_edges two_edge_node) 3 ∅ "ARG0" two_edge_node [] 6 40
              eq_refl Hedges Hcol eq_refl eq_refl eq_refl) as [[Hn Hj] He].
  split; [split|].
  - etransitivity; [exact Hn|]. reflexivity.
  - exact Hj.
  - etransitivity; [exact He|]. reflexivity.
Defined.

Lemma tracked_columns_witness :
  cursor_after 3 ("(" +:+ "b" +:+ " ") = 6%Z
  /\ cursor_after 40 (LF +:+ Str.repeat " " 6) = 6%Z
  /\ cursor_after 6 (":ARG0" +:+ "" +:+ " ") = 12%Z.
Proof.
  apply (tracked_columns (fun _ => "") (Some (CStr "b")) "ARG0" [] 3 6 40);
    [lia | reflexivity ..].
Defined.

(** ** Tokens after the node are left unread *)

Section TrailingTokens.

(** The first stream raises [raised] at its end; the second does anything
    there. *)
Variable raised : PenmanSyntaxError.
Variable at_end : PenmanSyntaxError + Token.

Lemma longer_ret {A} (a : A) : repeated_on_longer (ret a) (ret a).
Proof. intros ts rest more b H. apply ret_Return in H as [-> ->]. reflexivity. Qed.

Lemma longer_raise {A} (x y : PenmanSyntaxError) :
  repeated_on_longer (@raise A x) (raise y).
Proof. intros ts rest more b H. discriminate H. Qed.

Lemma longer_bind {A B} (m m' : Parser A) (k k' : A -> Parser B) :
  repeated_on_longer m m' ->
  (forall a, repeated_on_longer (k a) (k' a)) ->
  repeated_on_longer (bind m k) (bind m' k').
Proof.
  intros Hm Hk ts rest more b H.
  apply bind_Return in H as (a & ts' & Ha & H).
  unfold bind. rewrite (Hm _ _ more _ Ha). now apply Hk.
Qed.

Lemma longer_peek :
  repeated_on_longer (peek (inl raised)) (peek at_end).
Proof.
  intros [|t ts] rest more a H; [discriminate|].
  cbn in H. injection H as <- <-. reflexivity.
Qed.

Lemma longer_next :
  repeated_on_longer (next (inl raised)) (next at_end).
Proof.
  intros [|t ts] rest more a H; [discriminate|].
  cbn in H. injection H as <- <-. reflexivity.
Qed.

Lemma longer_expect (choices : list string) :
  repeated_on_longer (expect (inl raised) choices) (expect at_end choices).
Proof.
  intros [|t ts] rest more a H; [discriminate|].
  unfold expect in *. cbn [current app tail] in *.
  destruct (type_in t choices); [|discriminate].
  injection H as <- <-. reflexivity.
Qed.

Ltac longer_steps :=
  repeat first
    [ apply longer_ret
    | apply longer_raise
    | apply longer_peek
    | apply longer_next
    | apply longer_expect
    | apply longer_bind; [|intros ?]
    | match goal with
      | |- repeated_on_longer (if ?b then _ else _) _ => destruct b
      | |- repeated_on_longer (let '(_, _) := ?x in _) _ => destruct x
      end ].

Lemma longer_parse_alignment (c : MarkerClass) :
  repeated_on_longer (_parse_alignment (inl raised) c)
    (_parse_alignment at_end c).
Proof. unfold _parse_alignment. longer_steps. Qed.

Lemma longer_parse_node_label :
  repeated_on_longer (_parse_node_label (inl raised))
    (_parse_node_label at_end).
Proof.
  unfold _parse_node_label.
  longer_steps; apply longer_parse_alignment.
Qed.

Lemma longer_parse (fuel : nat) :
  forall fuel' : nat,
    (fuel <= fuel')%nat ->
    repeated_on_longer (_parse_node (inl raised) fuel)
      (_parse_node at_end fuel')
    /\ (forall acc,
          repeated_on_longer (_parse_edges (inl raised) fuel acc)
            (_parse_edges at_end fuel' acc))
    /\ repeated_on_longer (_parse_edge (inl raised) fuel)
         (_parse_edge at_end fuel').
Proof.
  induction fuel as [|fuel IH]; intros fuel' Hfuel.
  - repeat split; intros; intros ts rest more a H; discriminate H.
  - destruct fuel' as [|fuel']; [lia|].
    destruct (IH fuel' ltac:(lia)) as (IHnode & IHedges & IHedge).
    split; [|split].
    + cbn [_parse_node].
      longer_steps;
        first [ apply longer_parse_node_label | apply IHedges ].
    + intros acc. cbn [_parse_edges].
      longer_steps; first [ apply IHedge | apply IHedges ].
    + cbn [_parse_edge].
      longer_steps;
        first [ apply longer_parse_alignment | apply IHnode ].
Qed.

Lemma longer_parse_comments (fuel : nat) :
  forall (fuel' : nat) (md : Dict),
    (fuel <= fuel')%nat ->
    repeated_on_longer (_parse_comments_loop (inl raised) fuel md)
      (_parse_comments_loop at_end fuel' md).
Proof.
  induction fuel as [|fuel IH]; intros fuel' md Hfuel.
  - intros ts rest more a H; discriminate H.
  - destruct fuel' as [|fuel']; [lia|]. cbn [_parse_comments_loop].
    longer_steps. apply IH. lia.
Qed.

(** [parse] reads one node and no more: when it returns a tree on a
    stream that raises at its end, it returns the same tree on that stream
    with any tokens added after it, and leaves the added tokens unread;
    tokens that follow the root node are not an error. *)
Theorem parse_leaves_trailing_tokens :
  forall (tokens rest more : TokenIterator) (tree : Tree),
    parse (inl raised) tokens = Return (tree, rest) ->
    parse at_end (tokens ++ more) = Return (tree, rest ++ more).
Proof.
  intros tokens rest more tree H. unfold parse in *.
  assert (fuel_for tokens <= fuel_for (tokens ++ more))%nat as Hfuel
    by (unfold fuel_for; rewrite length_app; lia).
  revert H. generalize dependent (fuel_for (tokens ++ more)).
  generalize (fuel_for tokens). intros f1 f2 Hfuel.
  assert (repeated_on_longer
            (let* metadata := _parse_comments (inl raised) f1 in
             let* node := _parse_node (inl raised) f1 in
             ret (mkTree node metadata))
            (let* metadata := _parse_comments at_end f2 in
             let* node := _parse_node at_end f2 in
             ret (mkTree node metadata))) as Hall.
  { apply longer_bind; [now apply longer_parse_comments|]. intros md.
    apply longer_bind; [now apply longer_parse|]. intros n.
    apply longer_ret. }
  apply Hall.
Qed.

End TrailingTokens.

Lemma parse_leaves_trailing_tokens_witness :
  parse (inr end_marker) (dangling_tokens ++ [symbol_token "more"])
  = Return
      (mkTree
         (mkNode (Some (CStr "a"))
            [mkEdge ":ARG0" TNone [];
             mkEdge ":ARG1" (TAtom (CStr "b")) []]) [],
       [] ++ [symbol_token "more"]).
Proof.
  apply (parse_leaves_trailing_tokens ErrorEndOfInput (inr end_marker)
           dangling_tokens [] [symbol_token "more"]).
  reflexivity.
Defined.

(** ** The tokens of the node *)

Section ConsumedTokens.

Variable raised : PenmanSyntaxError.

Abbreviation raising := (@inl PenmanSyntaxError Token raised).

Lemma closes_shift (ts : list Token) :
  forall d d' k : nat,
    closes d ts = Some d' -> closes (d + k) ts = Some (d' + k)%nat.
Proof.
  induction ts as [|t ts IH]; intros d d' k H; cbn [closes] in *.
  - now injection H as ->.
  - destruct (is_type t "LPAREN"); [now apply (IH (S d))|].
    destruct (is_type t "RPAREN"); [|now apply IH].
    destruct d as [|d]; [discriminate|]. now apply IH.
Qed.

Lemma closes_app (a b : list Token) :
  forall d : nat,
    closes d (a ++ b)
    = match closes d a with
      | Some d' => closes d' b
      | None => None
      end.
Proof.
  induction a as [|t a IH]; intros d; cbn [closes app]; [reflexivity|].
  destruct (is_type t "LPAREN"); [apply IH|].
  destruct (is_type t "RPAREN"); [|apply IH].
  destruct d; [reflexivity | apply IH].
Qed.

Lemma balanced_nil : balanced [].
Proof. reflexivity. Qed.

Lemma balanced_app (a b : list Token) :
  balanced a -> balanced b -> balanced (a ++ b).
Proof. unfold balanced. intros Ha Hb. now rewrite closes_app, Ha. Qed.

Lemma balanced_token (t : Token) (choices : list string) :
  type_in t choices = true ->
  "LPAREN" ∉ choices ->
  "RPAREN" ∉ choices ->
  balanced [t].
Proof.
  intros Ht Hl Hr. apply type_in_elem in Ht. unfold balanced.
  cbn [closes].
  destruct (is_type t "LPAREN") eqn:H1;
    [apply is_type_eq in H1; congruence|].
  destruct (is_type t "RPAREN") eqn:H2;
    [apply is_type_eq in H2; congruence | reflexivity].
Qed.

Lemma balanced_enclosed (ts : list Token) : enclosed ts -> balanced ts.
Proof.
  intros (lp & rp & inner & -> & Hlp & Hrp & Hin). unfold balanced in *.
  cbn [closes]. rewrite Hlp, closes_app.
  pose proof (closes_shift inner 0 0 1 Hin) as Hs. cbn [Nat.add] in Hs.
  rewrite Hs. cbn [closes]. rewrite Hrp.
  destruct (is_type rp "LPAREN") eqn:H; [|reflexivity].
  apply is_type_eq in H, Hrp. congruence.
Qed.

(** On a stream that raises at its end, a token that is read is the first
    of the stream. *)
Lemma current_first (ts : TokenIterator) (t : Token) :
  current raising ts = inr t -> ts = t :: tail ts.
Proof. destruct ts; [discriminate|]. now intros [= ->]. Qed.

Ltac not_in_types :=
  unfold ATOMS, IDENTIFIERS; set_unfold;
  intros Hin; repeat destruct Hin as [Hin | Hin]; discriminate || exact Hin.

Lemma optional_alignment_consumes (c : MarkerClass) (t : Token)
    (epis out : list AlignmentMarker) (ts rest : TokenIterator) :
  (if is_type t "ALIGNMENT" then
     let* a := _parse_alignment raising c in ret (epis ++ [a])
   else ret epis) ts = Return (out, rest) ->
  exists pre, ts = pre ++ rest /\ balanced pre.
Proof.
  destruct (is_type t "ALIGNMENT"); intros H.
  - apply bind_Return in H as (a & ts' & Ha & H).
    apply ret_Return in H as [_ ->]. unfold _parse_alignment in Ha.
    apply bind_Return in Ha as (tok & ts1 & Hexp & Ha).
    apply ret_Return in Ha as [_ ->].
    apply expect_Return in Hexp as (-> & Hcur & Hty).
    apply current_first in Hcur. exists [tok].
    split; [exact Hcur|]. eapply balanced_token; [exact Hty|..];
      not_in_types.
  - apply ret_Return in H as [_ ->]. exists []. now split.
Qed.

Lemma parse_node_label_consumes (ts rest : TokenIterator) (e : Edge) :
  _parse_node_label raising ts = Return (e, rest) ->
  exists pre, ts = pre ++ rest /\ balanced pre.
Proof.
  unfold _parse_node_label. intros H.
  apply bind_Return in H as (s & ts1 & Hs & H).
  apply expect_Return in Hs as (-> & Hcur & Hs).
  apply current_first in Hcur.
  assert (balanced [s]) as Hbs
    by (eapply balanced_token; [exact Hs|..]; not_in_types).
  apply bind_Return in H as (t & ts2 & Ht & H).
  apply peek_Return in Ht as [-> Hcur'].
  destruct (type_in t ATOMS) eqn:Hatom.
  - apply bind_Return in H as (l & ts3 & Hl & H).
    apply next_Return in Hl as [-> Hcur'']. rewrite Hcur' in Hcur''.
    injection Hcur'' as <-. apply current_first in Hcur'.
    apply bind_Return in H as (t' & ts4 & Ht' & H).
    apply peek_Return in Ht' as [-> _].
    apply bind_Return in H as (epis & ts5 & Hepis & H).
    apply ret_Return in H as [_ ->].
    apply (optional_alignment_consumes Alignment t' []) in Hepis
      as (pre & Hpre & Hb).
    exists ([s] ++ [t] ++ pre). split.
    + rewrite Hcur, Hcur', Hpre at 1. now rewrite <- !app_assoc.
    + repeat apply balanced_app; try assumption.
      eapply balanced_token; [exact Hatom|..]; not_in_types.
  - apply ret_Return in H as [_ ->]. exists [s]. now split.
Qed.

Lemma parse_consumes (fuel : nat) :
  (forall ts n rest,
      _parse_node raising fuel ts = Return (n, rest) ->
      exists pre, ts = pre ++ rest /\ enclosed pre)
  /\ (forall ts acc es rest,
         _parse_edges raising fuel acc ts = Return (es, rest) ->
         exists pre, ts = pre ++ rest /\ balanced pre)
  /\ (forall ts e rest,
         _parse_edge raising fuel ts = Return (e, rest) ->
         exists pre, ts = pre ++ rest /\ balanced pre).
Proof.
  induction fuel as [|fuel (IHnode & IHedges & IHedge)];
    [repeat split; discriminate|].
  split; [|split].
  - intros ts n rest H. cbn [_parse_node] in H.
    apply bind_Return in H as (lp & ts1 & Hlp & H).
    apply expect_Return in Hlp as (-> & Hcur & Hlp).
    apply current_first in Hcur. rewrite type_in_single in Hlp.
    apply bind_Return in H as (t & ts1 & Ht & H).
    apply peek_Return in Ht as [-> _].
    apply bind_Return in H as ([id edges] & ts2 & Hbody & H).
    apply bind_Return in H as (rp & ts3 & Hrp & H).
    apply expect_Return in Hrp as (-> & Hcur2 & Hrp).
    apply current_first in Hcur2. rewrite type_in_single in Hrp.
    apply ret_Return in H as [_ ->].
    assert (exists inner, tail ts = inner ++ ts2 /\ balanced inner)
      as (inner & Hinner & Hb).
    { destruct (negb (is_type t "RPAREN")).
      - apply bind_Return in Hbody as (i & ts4 & Hi & Hbody).
        apply expect_Return in Hi as (-> & Hcur3 & Hi).
        apply current_first in Hcur3.
        apply bind_Return in Hbody as (t' & ts4 & Ht' & Hbody).
        apply peek_Return in Ht' as [-> _].
        apply bind_Return in Hbody as (edges0 & ts5 & Hlabel & Hbody).
        apply bind_Return in Hbody as (edges1 & ts6 & Hedges & Hbody).
        apply ret_Return in Hbody as [_ ->].
        apply IHedges in Hedges as (pre2 & Hpre2 & Hb2).
        assert (exists pre1, tail (tail ts) = pre1 ++ ts5 /\ balanced pre1)
          as (pre1 & Hpre1 & Hb1).
        { destruct (is_type t' "SLASH").
          - apply bind_Return in Hlabel as (l & ts7 & Hl & Hlabel).
            apply ret_Return in Hlabel as [_ ->].
            now apply parse_node_label_consumes in Hl.
          - apply ret_Return in Hlabel as [_ ->]. exists []. now split. }
        exists ([i] ++ pre1 ++ pre2). split.
        + rewrite Hcur3, Hpre1, Hpre2 at 1. now rewrite <- !app_assoc.
        + repeat apply balanced_app; try assumption.
          eapply balanced_token; [exact Hi|..]; not_in_types.
      - apply ret_Return in Hbody as [_ ->]. exists []. now split. }
    exists (lp :: inner ++ [rp]). split.
    + rewrite Hcur, Hinner, Hcur2 at 1. cbn [app].
      now rewrite <- app_assoc.
    + now exists lp, rp, inner.
  - intros ts acc es rest H. cbn [_parse_edges] in H.
    apply bind_Return in H as (t & ts1 & Ht & H).
    apply peek_Return in Ht as [-> _].
    destruct (negb (is_type t "RPAREN")).
    + apply bind_Return in H as (e & ts2 & He & H).
      apply IHedge in He as (pre1 & -> & Hb1).
      apply IHedges in H as (pre2 & -> & Hb2).
      exists (pre1 ++ pre2). split; [now rewrite app_assoc|].
      now apply balanced_app.
    + apply ret_Return in H as [_ ->]. exists []. now split.
  - intros ts e rest H. cbn [_parse_edge] in H.
    apply bind_Return in H as (r & ts1 & Hr & H).
    apply expect_Return in Hr as (-> & Hcur & Hr).
    apply current_first in Hcur.
    assert (balanced [r]) as Hbr
      by (eapply balanced_token; [exact Hr|..]; not_in_types).
    apply bind_Return in H as (t & ts1 & Ht & H).
    apply peek_Return in Ht as [-> _].
    apply bind_Return in H as (epidata & ts2 & Hepi & H).
    apply (optional_alignment_consumes RoleAlignment t []) in Hepi
      as (pre1 & Hpre1 & Hb1).
    apply bind_Return in H as (nxt & ts3 & Hnxt & H).
    apply peek_Return in Hnxt as [-> Hcur2].
    assert (exists pre2, ts2 = pre2 ++ rest /\ balanced pre2)
      as (pre2 & Hpre2 & Hb2).
    { destruct (type_in nxt ATOMS) eqn:Hatom.
      - apply bind_Return in H as (a & ts4 & Ha & H).
        apply next_Return in Ha as [-> Hcur3]. rewrite Hcur2 in Hcur3.
        injection Hcur3 as <-. apply current_first in Hcur2.
        apply bind_Return in H as (t' & ts4 & Ht' & H).
        apply peek_Return in Ht' as [-> _].
        apply bind_Return in H as (epidata' & ts5 & Hepi' & H).
        apply ret_Return in H as [_ ->].
        apply optional_alignment_consumes in Hepi' as (pre3 & Hpre3 & Hb3).
        exists ([nxt] ++ pre3). split.
        + rewrite Hcur2, Hpre3 at 1. now rewrite <- app_assoc.
        + apply balanced_app; [|exact Hb3].
          eapply balanced_token; [exact Hatom|..]; not_in_types.
      - destruct (is_type nxt "LPAREN").
        + apply bind_Return in H as (n & ts4 & Hn & H).
          apply ret_Return in H as [_ ->].
          apply IHnode in Hn as (pre & Hpre & Hen). exists pre.
          split; [exact Hpre | now apply balanced_enclosed].
        + destruct (negb (type_in nxt ["ROLE"; "RPAREN"]));
            [discriminate|].
          apply ret_Return in H as [_ ->]. exists []. now split. }
    exists ([r] ++ pre1 ++ pre2). split.
    + rewrite Hcur, Hpre1, Hpre2 at 1. now rewrite <- !app_assoc.
    + repeat apply balanced_app; assumption.
Qed.

(** [parse] reads the comments and then exactly one parenthesised group:
    on a stream that raises at its end, the tokens it reads before the
    stream it leaves are comment tokens followed by an opening
    parenthesis, tokens whose parentheses match, and the closing
    parenthesis that matches the first one. *)
Theorem parse_reads_enclosed_tokens :
  forall (tokens rest : TokenIterator) (tree : Tree),
    parse raising tokens = Return (tree, rest) ->
    exists comments body : list Token,
      tokens = comments ++ body ++ rest
      /\ Forall (fun t => is_type t "COMMENT" = true) comments
      /\ enclosed body.
Proof.
  intros tokens rest tree H. unfold parse in H.
  apply bind_Return in H as (md & ts1 & Hmd & H).
  apply bind_Return in H as (n & ts2 & Hn & H).
  apply ret_Return in H as [_ ->].
  apply parse_comments_loop_reads in Hmd as (comments & -> & Hc & _ & _).
  apply parse_consumes in Hn as (body & -> & Hbody).
  now exists comments, body.
Qed.

End ConsumedTokens.

Lemma parse_reads_enclosed_tokens_witness :
  exists comments body : list Token,
    dangling_tokens ++ [symbol_token "more"]
    = comments ++ body ++ [symbol_token "more"]
    /\ Forall (fun t => is_type t "COMMENT" = true) comments
    /\ enclosed body.
Proof.
  apply (parse_reads_enclosed_tokens ErrorEndOfInput
           (dangling_tokens ++ [symbol_token "more"]) [symbol_token "more"]
           (mkTree
              (mkNode (Some (CStr "a"))
                 [mkEdge ":ARG0" TNone [];
                  mkEdge ":ARG1" (TAtom (CStr "b")) []]) [])).
  reflexivity.
Defined.

(** ** Rejected openings and written roles *)

Section Openings.

Variable at_end : PenmanSyntaxError + Token.

Lemma parse_comments_loop_over (comments : list Token) :
  forall (fuel : nat) (md : Dict) (rest : TokenIterator),
    Forall (fun t => is_type t "COMMENT" = true) comments ->
    not_comment_next at_end rest = true ->
    (length comments < fuel)%nat ->
    _parse_comments_loop at_end fuel md (comments ++ rest)
    = Return (fold_left (fun m t => parse_comment (text t) m) comments md,
              rest).
Proof.
  induction comments as [|c comments IH]; intros fuel md rest Hall Hrest Hfuel;
    (destruct fuel as [|fuel]; [cbn in Hfuel; lia|]).
  - cbn [app _parse_comments_loop fold_left].
    unfold not_comment_next in Hrest. unfold bind, peek.
    destruct (current at_end rest) as [e|t]; [discriminate|].
    apply negb_true_iff in Hrest. now rewrite Hrest.
  - apply Forall_cons in Hall as [Hc Hall].
    cbn [app _parse_comments_loop fold_left]. unfold bind at 1.
    rewrite peek_cons, Hc. unfold bind at 1. rewrite next_cons.
    apply IH; [assumption..|]. cbn [length] in Hfuel. lia.
Qed.

(** [parse] rejects a stream that does not open a node after its
    comments: a first token that is not an opening parenthesis is the
    error [expected LPAREN] at that token, and after the opening
    parenthesis a token that is neither a closing parenthesis nor a symbol
    is the error [expected SYMBOL] at that token, so that a number or a
    string cannot be the identifier of a node. *)
Theorem parse_rejects_opening :
  forall (comments : list Token) (t : Token) (rest : TokenIterator),
    Forall (fun c => is_type c "COMMENT" = true) comments ->
    is_type t "COMMENT" = false ->
    (is_type t "LPAREN" = false ->
     parse at_end (comments ++ t :: rest)
     = Raise (ErrorExpected ["LPAREN"] t))
    /\ (is_type t "LPAREN" = true ->
        forall (t' : Token) (rest' : TokenIterator),
          rest = t' :: rest' ->
          is_type t' "RPAREN" = false ->
          type_in t' IDENTIFIERS = false ->
          parse at_end (comments ++ t :: rest)
          = Raise (ErrorExpected IDENTIFIERS t')).
Proof.
  intros comments t rest Hall Ht.
  assert (forall r, _parse_comments at_end
                      (fuel_for (comments ++ t :: r)) (comments ++ t :: r)
                    = Return (fold_left
                                (fun m c => parse_comment (text c) m)
                                comments [], t :: r)) as Hcomments.
  { intros r. unfold _parse_comments. apply parse_comments_loop_over.
    - exact Hall.
    - unfold not_comment_next. cbn [current]. now rewrite Ht.
    - unfold fuel_for. rewrite length_app. lia. }
  split.
  - intros Hlp. unfold parse, bind. rewrite Hcomments.
    unfold fuel_for. rewrite Nat.add_comm. cbn [Nat.add _parse_node].
    unfold bind. rewrite expect_cons_other; [reflexivity|].
    now rewrite type_in_single.
  - intros Hlp t' rest' -> Hrp Hid. unfold parse, bind.
    rewrite Hcomments. unfold fuel_for. rewrite Nat.add_comm.
    cbn [Nat.add _parse_node]. unfold bind.
    rewrite expect_cons by now rewrite type_in_single.
    rewrite peek_cons, Hrp. cbn [negb].
    now rewrite expect_cons_other.
Qed.

Lemma startswith_colon (role : string) :
  Str.startswith (":" +:+ role) ":" = true.
Proof. reflexivity. Qed.

(** Writing a role is settled after one step: the role as written is
    written as it is, and a role that is ["/"] or starts with a colon is
    written unchanged. *)
Theorem format_role_idempotent :
  forall role : string,
    format_role (format_role role) = format_role role
    /\ (role = "/" \/ Str.startswith role ":" = true ->
        format_role role = role).
Proof.
  intros role. unfold format_role.
  destruct (String.eqb role "/") eqn:Hslash; cbn [negb andb].
  - rewrite Hslash. cbn [negb andb]. now split.
  - destruct (Str.startswith role ":") eqn:Hcolon; cbn [negb].
    + rewrite Hslash, Hcolon. cbn [negb andb]. now split.
    + rewrite startswith_colon, andb_false_r. split; [reflexivity|].
      intros [-> | H]; discriminate.
Qed.

End Openings.

Lemma parse_rejects_opening_witness :
  parse (inl ErrorEndOfInput)
    ([comment_token "# ::id 1"]
     ++ punct_token "LPAREN" "(" :: [mkToken "INTEGER" "1" (CInt 1);
                                      punct_token "RPAREN" ")"])
  = Raise (ErrorExpected IDENTIFIERS (mkToken "INTEGER" "1" (CInt 1))).
Proof.
  refine (proj2 (parse_rejects_opening (inl ErrorEndOfInput)
                   [comment_token "# ::id 1"] (punct_token "LPAREN" "(")
                   [mkToken "INTEGER" "1" (CInt 1); punct_token "RPAREN" ")"]
                   _ _) _ _ _ eq_refl _ _).
  - repeat constructor.
  - reflexivity.
  - reflexivity.
  - reflexivity.
  - reflexivity.
Defined.

Lemma format_role_idempotent_witness : format_role ":ARG0" = ":ARG0".
Proof.
  apply (format_role_idempotent ":ARG0"). right. reflexivity.
Defined.
